(** * PyGEP: Karva genes and the generational population loop

    A shallow embedding of [pygep/gene/karva.py] (branch pygep-0.2) and of
    [pygep/population.py] (trunk), with the properties of the coding region,
    of evaluation, of memoization and derivation, and of one generation
    cycle.

    Python objects that are mutated or compared by identity (gene instances,
    the memo dictionaries hanging off them) live in an explicit store and are
    named by their address; plain data (allele lists, numbers, strings) are
    Rocq values.  Every operation returns an [outcome]: a value, a raised
    Python exception, or [Unfinished] when a fuelled loop ran out of fuel
    (shown below never to happen). *)

From Stdlib Require Import ZArith Lia.
From stdpp Require Import gmap strings list pretty.

(** ** Python prelude *)

(** The exceptions that matter here.  [CalleeError] stands for whatever a
    function symbol's own code raises; [ReferenceError] is the answer for
    an address that names no object in the store, which Python code cannot
    produce. *)
Inductive exn : Type :=
  | IndexError
  | AttributeError (name : string)
  | TypeError
  | ValueError (msg : string)
  | CalleeError
  | ReferenceError.

Inductive outcome (A : Type) : Type :=
  | Ok (a : A)
  | Raise (e : exn)
  | Unfinished.
Arguments Ok {A} a.
Arguments Raise {A} e.
Arguments Unfinished {A}.

Definition bind {A B} (m : outcome A) (k : A -> outcome B) : outcome B :=
  match m with
  | Ok a => k a
  | Raise e => Raise e
  | Unfinished => Unfinished
  end.

(** Effects that an observer can count: attribute look-ups on the context,
    the slices taken from the results array, and each entry into the
    undecorated body of a memoized method. *)
Inductive event : Type :=
  | EGetattr (name : string)
  | ESlice (lo hi : Z)
  | EEnter.

(** A computation together with the events it performed, in order; the
    events of a computation that raises are those up to the raise. *)
Definition traced (A : Type) : Type := (outcome A * list event)%type.

Definition tret {A} (a : A) : traced A := (Ok a, []).
Definition lift {A} (m : outcome A) : traced A := (m, []).
Definition emit (e : event) : traced unit := (Ok tt, [e]).

Definition tbind {A B} (m : traced A) (k : A -> traced B) : traced B :=
  match m.1 with
  | Ok a => ((k a).1, m.2 ++ (k a).2)
  | Raise e => (Raise e, m.2)
  | Unfinished => (Unfinished, m.2)
  end.

Declare Scope py_scope.
Delimit Scope py_scope with py.
Notation "'let*' x ':=' m 'in' k" := (bind m (fun x => k))
  (at level 10, x name, m at level 100, k at level 200) : py_scope.
Notation "'let+' x ':=' m 'in' k" := (tbind m (fun x => k))
  (at level 10, x name, m at level 100, k at level 200) : py_scope.
Local Open Scope py_scope.

(** [seq[i]] for a non-negative index: [IndexError] out of range. *)
Definition getitem {A} (l : list A) (i : nat) : outcome A :=
  match l !! i with
  | Some a => Ok a
  | None => Raise IndexError
  end.

(** [seq[i] = x] for a non-negative index: [IndexError] out of range. *)
Definition setitem {A} (l : list A) (i : nat) (x : A) : outcome (list A) :=
  if decide (i < length l) then Ok (<[i:=x]> l) else Raise IndexError.

(** How Python turns one bound of [seq[lo:hi]] into a position: a negative
    bound counts from the end, and the result is clamped to [0..len]. *)
Definition slice_bound (len : nat) (i : Z) : nat :=
  let j := (if i <? 0 then i + Z.of_nat len else i)%Z in
  Z.to_nat (Z.max 0 (Z.min j (Z.of_nat len))).

(** [seq[lo:hi]] *)
Definition getslice {A} (l : list A) (lo hi : Z) : list A :=
  let a := slice_bound (length l) lo in
  let b := slice_bound (length l) hi in
  take (b - a) (drop a l).

(** [seq[lo:hi] = xs] on a list *)
Definition setslice {A} (l : list A) (lo hi : Z) (xs : list A) : list A :=
  let a := slice_bound (length l) lo in
  let b := slice_bound (length l) hi in
  take a l ++ xs ++ drop (Nat.max a b) l.

(** [seq[lo:]] *)
Definition slice_from {A} (l : list A) (lo : Z) : list A :=
  drop (slice_bound (length l) lo) l.

(** Python values that flow through an evaluation: [None] or a number. *)
Inductive value : Type :=
  | VNone
  | VNum (z : Z).

(** ** karva.py *)

Module karva.

(** A function symbol: a Python function object.  [func_id] stands for the
    object's identity (functions compare by identity), [func_name] for
    [__name__], [symbol] for the optional display attribute, [co_argcount]
    for [func_code.co_argcount] and [code] for what calling it on as many
    arguments returns ([None] when its own code raises). *)
Record func : Type := {
  func_id : nat;
  func_name : string;
  symbol : option string;
  co_argcount : nat;
  code : list value -> option value
}.

(** An allele is a function, a terminal name or a numeric constant. *)
Inductive allele : Type :=
  | Fn (f : func)
  | Name (s : string)
  | Const (z : Z).

Definition callable (a : allele) : bool :=
  match a with Fn _ => true | _ => false end.

(** [a == b] on alleles *)
Definition allele_eqb (a b : allele) : bool :=
  match a, b with
  | Fn f, Fn g => bool_decide (func_id f = func_id g)
  | Name s, Name t => bool_decide (s = t)
  | Const x, Const y => bool_decide (x = y)
  | _, _ => false
  end.

(** [xs == ys] on allele lists *)
Fixpoint alleles_eqb (xs ys : list allele) : bool :=
  match xs, ys with
  | [], [] => true
  | x :: xs', y :: ys' => allele_eqb x y && alleles_eqb xs' ys'
  | _, _ => false
  end.

(** *** [_find_coding] *)

(** The inner loop [for _ in xrange(args)], from [index] with [next_args]
    accumulated so far; returns the new [(index, next_args)]. *)
Fixpoint sweep (alleles : list allele) (args index next_args : nat)
  : outcome (nat * nat) :=
  match args with
  | O => Ok (index, next_args)
  | S args' =>
      let* a := getitem alleles index in
      let next_args :=
        match a with
        | Fn f => next_args + co_argcount f
        | _ => next_args
        end in
      sweep alleles args' (S index) next_args
  end.

(** The outer loop [while args]. *)
Fixpoint while_args (fuel : nat) (alleles : list allele) (index args : nat)
  : outcome nat :=
  match args with
  | O => Ok index
  | S _ =>
      match fuel with
      | O => Unfinished
      | S fuel' =>
          let* level := sweep alleles args index 0 in
          while_args fuel' alleles level.1 level.2
      end
  end.

(** The value assigned to [self.coding]. *)
Definition _find_coding (alleles : list allele) : outcome Z :=
  let* index := while_args (S (length alleles)) alleles 0 1 in
  Ok (Z.of_nat index - 1)%Z.

(** *** The gene object and the store *)

(** An instance's attributes.  [memo] is the attribute whose name is
    [__call__.memo]: absent until the first call, then the address of the
    instance's cache dictionary. *)
Record KarvaGene : Type := {
  alleles : list allele;
  head : Z;
  coding : Z;
  memo : option nat
}.

(** A context object: its identity and its attributes. *)
Record context : Type := {
  ctx_id : nat;
  attrs : gmap string value
}.

(** Gene instances and cache dictionaries by address; an address is the
    position in the store, and allocation appends. *)
Record heap : Type := {
  genes : list KarvaGene;
  dicts : list (gmap nat value)
}.

Definition empty_heap : heap := {| genes := []; dicts := [] |}.

(** [KarvaGene(alleles, head)]: the address of the new instance. *)
Definition __init__ (h : heap) (alleles : list allele) (head : Z)
  : outcome (nat * heap) :=
  let* c := _find_coding alleles in
  Ok (length (genes h),
      {| genes := genes h ++
                  [{| alleles := alleles; head := head; coding := c;
                      memo := None |}];
         dicts := dicts h |}).

(** *** [__call__] *)

Definition getattr (obj : context) (name : string) : traced value :=
  let+ _ := emit (EGetattr name) in
  lift (match attrs obj !! name with
        | Some v => Ok v
        | None => Raise (AttributeError name)
        end).

Definition _value (obj : context) (a : allele) : traced value :=
  match a with
  | Fn _ => tret VNone
  | Const z => tret (VNum z)
  | Name s => getattr obj s
  end.

(** [[_value(a) for a in alleles]] *)
Fixpoint comprehension (obj : context) (alleles : list allele)
  : traced (list value) :=
  match alleles with
  | [] => tret []
  | a :: rest =>
      let+ v := _value obj a in
      let+ vs := comprehension obj rest in
      tret (v :: vs)
  end.

(** Calling [f] with the list [args] unpacked as its positional arguments. *)
Definition apply (f : func) (args : list value) : outcome value :=
  if decide (length args = co_argcount f) then
    match code f args with
    | Some v => Ok v
    | None => Raise CalleeError
    end
  else Raise TypeError.

(** [for i in reversed(xrange(n))] with the loop's variables
    [(evaluation, index)]. *)
Fixpoint walk (alleles : list allele) (n : nat) (evaluation : list value)
  (index : Z) : traced (list value * Z) :=
  match n with
  | O => tret (evaluation, index)
  | S i =>
      let+ allele := lift (getitem alleles i) in
      match allele with
      | Fn f =>
          let num := Z.of_nat (co_argcount f) in
          let+ _ := emit (ESlice (index - num) index) in
          let args := getslice evaluation (index - num) index in
          let+ r := lift (apply f args) in
          let+ evaluation' := lift (setitem evaluation i r) in
          walk alleles i evaluation' (index - num)%Z
      | _ => walk alleles i evaluation index
      end
  end.

(** The undecorated method body. *)
Definition call_body (self : KarvaGene) (obj : context) : traced value :=
  let+ evaluation := comprehension obj (alleles self) in
  let index := (coding self + 1)%Z in
  let+ st := walk (alleles self) (Z.to_nat index) evaluation index in
  lift (getitem st.1 0).

(** Modelled from the spec: [pygep.util.memoize], which is imported by
    karva.py but is not among the sources.  The cache is a dictionary owned
    by the gene instance, stored under the attribute [__call__.memo] (set on
    the first call), keyed by the identity of the context object; a call
    whose key is present returns the stored value without entering the
    body, any other call enters the body and stores its result. *)
Definition memoize (body : KarvaGene -> context -> traced value)
  (h : heap) (self : nat) (obj : context) : traced value * heap :=
  match genes h !! self with
  | None => (lift (Raise ReferenceError), h)
  | Some g =>
      let d := default (length (dicts h)) (memo g) in
      let h1 :=
        match memo g with
        | Some _ => h
        | None =>
            {| genes := <[self := {| alleles := alleles g; head := head g;
                                     coding := coding g; memo := Some d |}]>
                        (genes h);
               dicts := dicts h ++ [∅] |}
        end in
      match dicts h1 !! d with
      | None => (lift (Raise ReferenceError), h1)
      | Some cache =>
          match cache !! ctx_id obj with
          | Some v => (tret v, h1)
          | None =>
              let r := (let+ _ := emit EEnter in body g obj) in
              match r.1 with
              | Ok v =>
                  (r, {| genes := genes h1;
                         dicts := <[d := <[ctx_id obj := v]> cache]>
                                  (dicts h1) |})
              | _ => (r, h1)
              end
          end
      end
  end.

(** The decorated method: [@memoize def __call__(self, obj)]. *)
Definition __call__ : heap -> nat -> context -> traced value * heap :=
  memoize call_body.

(** *** [__repr__] *)

(** The name chosen by the nested [try]: [symbol], else [__name__], else
    [str(allele)]. *)
Definition display (a : allele) : string :=
  match a with
  | Fn f => default (func_name f) (symbol f)
  | Name s => s
  | Const z => pretty z
  end.

Definition __repr__ (self : KarvaGene) : string :=
  foldl (fun s a =>
           let name := display a in
           s +:+ (if decide (String.length name = 1) then name
                  else "{" +:+ name +:+ "}"))
        EmptyString (alleles self).

(** *** [derive] *)

(** Python's truth value of [new], which is [None] or a list. *)
Definition truthy (new : option (list allele)) : bool :=
  match new with
  | Some (_ :: _) => true
  | _ => false
  end.

(** Does the edit differ from what the receiver holds there?
    ([self[index:index+l] != alleles]) *)
Definition differs (self : KarvaGene) (ch : nat * list allele) : bool :=
  let index := Z.of_nat ch.1 in
  let l := Z.of_nat (length ch.2) in
  negb (alleles_eqb (getslice (alleles self) index (index + l)) ch.2).

(** One round of [for index, alleles in changes], on [(new, same)]. *)
Definition derive_step (self : KarvaGene)
  (st : option (list allele) * bool) (ch : nat * list allele)
  : option (list allele) * bool :=
  let index := Z.of_nat ch.1 in
  let l := Z.of_nat (length ch.2) in
  if differs self ch then
    let new' :=
      if truthy st.1 then
        setslice (default [] st.1) index (index + l) ch.2
      else
        getslice (alleles self) 0 index ++ ch.2 ++
        slice_from (alleles self) (index + l) in
    let same' :=
      if st.2 && bool_decide (index <= coding self)%Z then false
      else st.2 in
    (Some new', same')
  else st.

(** The whole loop, from [new = None] and [same = True]. *)
Definition derive_loop (self : KarvaGene) (changes : list (nat * list allele))
  : option (list allele) * bool :=
  foldl (derive_step self) (None, true) changes.

Definition derive (h : heap) (self : nat) (changes : list (nat * list allele))
  : outcome nat * heap :=
  match genes h !! self with
  | None => (Raise ReferenceError, h)
  | Some s =>
      let st := derive_loop s changes in
      if truthy st.1 then
        (* gene = copy(self); gene.alleles = new *)
        let gene := length (genes h) in
        let new := default [] st.1 in
        let copied := {| alleles := new; head := head s;
                         coding := coding s; memo := memo s |} in
        let h1 := {| genes := genes h ++ [copied]; dicts := dicts h |} in
        if st.2 then (Ok gene, h1)
        else
          match _find_coding new with
          | Ok c =>
              (Ok gene,
               {| genes := genes h ++
                           [{| alleles := new; head := head s; coding := c;
                               memo := None |}];
                  dicts := dicts h |})
          | Raise e => (Raise e, h1)
          | Unfinished => (Unfinished, h1)
          end
      else (Ok self, h)
  end.

(** *** The container protocol *)

(** [seq[i]] on a list for any integer index: a negative index counts from
    the end, and anything outside [-len..len-1] is an [IndexError]. *)
Definition getitem_int {A} (l : list A) (i : Z) : outcome A :=
  let j := (if i <? 0 then i + Z.of_nat (length l) else i)%Z in
  if (j <? 0)%Z then Raise IndexError else getitem l (Z.to_nat j).

Definition __len__ (self : KarvaGene) : nat := length (alleles self).

(** The alleles that [iter(self)] yields, in order. *)
Definition __iter__ (self : KarvaGene) : list allele := alleles self.

Definition __getitem__ (self : KarvaGene) (i : Z) : outcome allele :=
  getitem_int (alleles self) i.

Definition __getslice__ (self : KarvaGene) (i j : Z) : list allele :=
  getslice (alleles self) i j.

End karva.

(** ** population.py *)

Module population.

(** A chromosome as the population sees it: an opaque object with an
    identity, a length, a [fitness] attribute and a string form. *)
Record chromosome : Type := {
  chrom_id : nat;
  chrom_len : nat;
  fitness : Z;
  chrom_str : string
}.

(** What a buffer holds in one place: a chromosome, or Python's [None]
    (the placeholder of [[None] * size]). *)
Abbreviation slot := (option chromosome).

(** A generator: what its k-th [next()] yields, [None] once exhausted. *)
Definition generator : Type := nat -> option chromosome.

(** The chromosome class, as far as the population uses it:
    [cls.generate(head, genes, linker)]. *)
Record chromosome_class : Type := {
  generate : Z -> Z -> (value -> value) -> generator
}.

Record Population : Type := {
  size : Z;
  head : Z;
  genes : Z;
  linker : value -> value;
  age : Z;
  population : list slot;
  _next_pop : list slot;
  header : string
}.

(** [[i for _, i in izip(xrange(n), gen)]], the generator being at its k-th
    item. *)
Fixpoint izip_take (n : nat) (gen : generator) (k : nat) : list chromosome :=
  match n with
  | O => []
  | S n' =>
      match gen k with
      | Some c => c :: izip_take n' gen (S k)
      | None => []
      end
  end.

(** [s * n] on strings *)
Fixpoint str_mul (s : string) (n : nat) : string :=
  match n with
  | O => EmptyString
  | S n' => s +:+ str_mul s n'
  end.

Definition digits : string := "0123456789".
Definition newline : string := String (Ascii.ascii_of_nat 10) EmptyString.

Definition make_header (l : nat) : string :=
  let line := str_mul digits (l / String.length digits) +:+
              String.substring 0 (l mod String.length digits) digits in
  line +:+ newline +:+ str_mul "-" (String.length line).

Definition __init__ (cls : chromosome_class) (size head genes : Z)
  (linker : value -> value) : outcome Population :=
  let population :=
    Some <$> izip_take (Z.to_nat size) (generate cls head genes linker) 0 in
  let _next_pop := replicate (Z.to_nat size) (None : slot) in
  match population !! 0%nat with
  | Some (Some c) =>
      Ok {| size := size; head := head; genes := genes; linker := linker;
            age := 1; population := population; _next_pop := _next_pop;
            header := make_header (chrom_len c) |}
  | Some None => Raise TypeError
  | None => Raise (ValueError "Empty populations are meaningless!")
  end.

(** [attrgetter('fitness')] *)
Definition fitness_of (s : slot) : outcome Z :=
  match s with
  | Some c => Ok (fitness c)
  | None => Raise (AttributeError "fitness")
  end.

(** The scan of [max(seq, key=...)]: the champion so far is replaced only
    by a strictly greater key. *)
Fixpoint max_scan (champion : slot) (k : Z) (rest : list slot)
  : outcome slot :=
  match rest with
  | [] => Ok champion
  | x :: rest' =>
      let* kx := fitness_of x in
      if (k <? kx)%Z then max_scan x kx rest'
      else max_scan champion k rest'
  end.

Definition best (p : Population) : outcome slot :=
  match population p with
  | [] => Raise (ValueError "max() arg is an empty sequence")
  | x :: rest =>
      let* kx := fitness_of x in
      max_scan x kx rest
  end.

(** [random.choice(seq)] when the generator's draw selects position
    [r mod len(seq)]. *)
Definition choice {A} (r : nat) (seq : list A) : outcome A :=
  match seq with
  | [] => Raise IndexError
  | _ => getitem seq (r mod length seq)
  end.

(** [for i in xrange(1, size): _next_pop[i] = random.choice(population)],
    over the remaining values of [i]; [rng i] is the draw made at [i]. *)
Fixpoint fill (pop : list slot) (rng : nat -> nat) (range : list nat)
  (next : list slot) : outcome (list slot) :=
  match range with
  | [] => Ok next
  | i :: range' =>
      let* c := choice (rng i) pop in
      let* next' := setitem next i c in
      fill pop rng range' next'
  end.

Definition cycle (p : Population) (rng : nat -> nat) : outcome Population :=
  let* b := best p in
  let* next := setitem (_next_pop p) 0 b in
  let* next := fill (population p) rng (seq 1 (Z.to_nat (size p) - 1)) next in
  Ok {| size := size p; head := head p; genes := genes p;
        linker := linker p; age := age p + 1;
        population := next; _next_pop := population p;
        header := header p |}.

(** [str(i)] for what a buffer holds. *)
Definition str_slot (s : slot) : string :=
  match s with
  | Some c => chrom_str c
  | None => "None"
  end.

(** [sep.join(parts)] *)
Fixpoint join (sep : string) (parts : list string) : string :=
  match parts with
  | [] => EmptyString
  | [s] => s
  | s :: rest => s +:+ sep +:+ join sep rest
  end.

Definition __repr__ (p : Population) : string :=
  join newline (header p :: (str_slot <$> population p)).

(** The chromosomes that [iter(self)] yields, in order. *)
Definition __iter__ (p : Population) : list slot := population p.

(** [solve] is a stub ([pass]): it returns [None] and changes nothing. *)
Definition solve (p : Population) (generations : Z) : value * Population :=
  (VNone, p).

End population.

(** ** Vocabulary of the properties *)

Section Vocabulary.
Import karva.

(** Number of arguments an allele asks for. *)
Definition arity (a : allele) : nat :=
  match a with
  | Fn f => co_argcount f
  | _ => 0
  end.

(** Argument slots required by the functions of a list of alleles. *)
Definition required (l : list allele) : nat := sum_list_with arity l.

(** The prefix [alleles[0..c]] is closed: besides the root it has exactly
    as many alleles as its functions require. *)
Definition closes (alleles : list allele) (c : nat) : Prop :=
  c < length alleles ∧ required (take (S c) alleles) = c.

(** A well-formed genotype: non-empty, and some prefix is closed. *)
Definition well_formed (alleles : list allele) : Prop :=
  ∃ c, closes alleles c.

(** The value cached on gene [g] for the context of identity [k], if any. *)
Definition cached (h : heap) (g k : nat) : option value :=
  gene ← genes h !! g; d ← memo gene; cache ← dicts h !! d; cache !! k.

(** The edit is an actual change of the receiver. *)
Definition actual_change (self : KarvaGene) (ch : nat * list allele) : Prop :=
  differs self ch = true.

(** The terminal names of a list of alleles, in order. *)
Definition terminals (l : list allele) : list string :=
  omap (fun a => match a with Name s => Some s | _ => None end) l.

(** A number, as opposed to [None]. *)
Definition is_number (v : value) : Prop := ∃ z, v = VNum z.

(** [slices_within n t]: every slice taken in [t] has its bounds in order
    and between [0] and [n]. *)
Definition slices_within (n : Z) (t : list event) : Prop :=
  ∀ lo hi, ESlice lo hi ∈ t → (0 ≤ lo ∧ lo ≤ hi ∧ hi ≤ n)%Z.

(** What holds at the head of the [while] loop of [_find_coding]: the
    alleles consumed so far and the arguments still owed add up, and no
    proper prefix consumed so far is closed. *)
Definition level_inv (alleles : list allele) (index args : nat) : Prop :=
  index ≤ length alleles ∧
  index + args = 1 + required (take index alleles) ∧
  ∀ k, 1 ≤ k < index → k < 1 + required (take k alleles).

(** A traced computation that indexed nothing out of range: it did not
    raise [IndexError], it finished, and its slices lie within [0..n]. *)
Definition in_bounds {A} (n : Z) (r : traced A) : Prop :=
  r.1 ≠ Raise IndexError ∧ r.1 ≠ Unfinished ∧ slices_within n r.2.

(** The ways an evaluation may end: with a value, with the [AttributeError]
    of a terminal name that the context lacks, or with an exception from a
    function symbol's own code. *)
Definition ends_well (alleles : list allele) (obj : context)
  (o : outcome value) : Prop :=
  (∃ v, o = Ok v) ∨
  (∃ s, s ∈ terminals alleles ∧ attrs obj !! s = None ∧
        o = Raise (AttributeError s)) ∨
  (∃ f args, Fn f ∈ alleles ∧ length args = co_argcount f ∧
             code f args = None ∧ o = Raise CalleeError).

(** Where the arguments of the allele at [i] start in breadth-first order:
    just after the arguments of all alleles before it. *)
Definition child_start (alleles : list allele) (i : nat) : nat :=
  1 + required (take i alleles).

(** [ev] holds, at every position up to [c], the value of the expression
    rooted there: a constant is itself, a name is the context's attribute,
    and a function is applied to the values at its arguments' positions. *)
Definition decoded (alleles : list allele) (obj : context) (c : nat)
  (ev : list value) : Prop :=
  ∀ i a, i ≤ c → alleles !! i = Some a →
    match a with
    | Const z => ev !! i = Some (VNum z)
    | Name s => ev !! i = attrs obj !! s
    | Fn f =>
        ∃ r, ev !! i = Some r ∧
             code f (take (co_argcount f) (drop (child_start alleles i) ev))
             = Some r
    end.

(** Characters that [__repr__] writes for one allele. *)
Definition glyph_width (a : allele) : nat :=
  let n := String.length (display a) in
  if decide (n = 1) then 1 else n + 2.

(** The head/tail rule of gene expression programming: functions occur
    before position [h] only, take at most [n] arguments, and the gene has
    room for [h * n + 1] alleles. *)
Definition head_tail_rule (alleles : list allele) (h n : nat) : Prop :=
  (∀ i f, alleles !! i = Some (Fn f) → i < h ∧ co_argcount f ≤ n) ∧
  h * n + 1 ≤ length alleles.

(** The invariant of a gene object: [coding] is what [_find_coding]
    computes for its alleles. *)
Definition gene_inv (g : KarvaGene) : Prop :=
  _find_coding (alleles g) = Ok (coding g).

(** Step 1 of evaluation as limited to the coding region: the results
    array has [coding + 1] slots and only names at positions up to [coding]
    are looked up on the context. *)
Definition resolves_coding_region_only (g : KarvaGene) (obj : context)
  : Prop :=
  (∀ vs, (comprehension obj (alleles g)).1 = Ok vs →
         Z.of_nat (length vs) = (coding g + 1)%Z) ∧
  ∀ s, EGetattr s ∈ (call_body g obj).2 →
       ∃ i : nat, (Z.of_nat i ≤ coding g)%Z ∧ alleles g !! i = Some (Name s).

End Vocabulary.

Section PopulationVocabulary.
Import population.

(** The data-model invariant of a population: both buffers hold exactly
    [size] places, [size] is positive and the active buffer holds
    chromosomes only. *)
Definition pop_inv (p : Population) : Prop :=
  (1 ≤ size p)%Z ∧
  length (population p) = Z.to_nat (size p) ∧
  length (_next_pop p) = Z.to_nat (size p) ∧
  Forall is_Some (population p).

End PopulationVocabulary.

(** ** Sample symbols and objects *)

Section Samples.
Import karva.

Definition add_code (args : list value) : option value :=
  match args with
  | [VNum a; VNum b] => Some (VNum (a + b))
  | _ => None
  end.

(** [def add(a, b): return a + b], shown by its name. *)
Definition add : func :=
  {| func_id := 1; func_name := "add"; symbol := None; co_argcount := 2;
     code := add_code |}.

(** The same function with [add.symbol = '+']. *)
Definition plus : func :=
  {| func_id := 2; func_name := "add"; symbol := Some "+"; co_argcount := 2;
     code := add_code |}.

(** A context object with [x = 5]. *)
Definition ctx5 : context := {| ctx_id := 7; attrs := {[ "x" := VNum 5 ]} |}.

(** Another object with the same attribute values. *)
Definition ctx5' : context := {| ctx_id := 8; attrs := {[ "x" := VNum 5 ]} |}.

(** [add x 3] followed by an unused terminal [y]. *)
Definition gene_xy : KarvaGene :=
  {| alleles := [Fn add; Name "x"; Const 3; Name "y"]; head := 1;
     coding := 2; memo := None |}.

(** A context object with [x = 5] and [y = 1]. *)
Definition ctx_xy : context :=
  {| ctx_id := 9; attrs := {[ "x" := VNum 5; "y" := VNum 1 ]} |}.

End Samples.

Section PopulationSamples.
Import population.

(** A class whose generator never runs dry: its k-th chromosome has
    fitness [k mod 4]. *)
Definition endless_class : chromosome_class :=
  {| generate := fun _ _ _ k =>
       Some {| chrom_id := k; chrom_len := 13;
               fitness := Z.of_nat (k mod 4); chrom_str := "c" |} |}.

(** A class whose generator yields nothing. *)
Definition barren_class : chromosome_class :=
  {| generate := fun _ _ _ _ => None |}.

Definition identity_linker (v : value) : value := v.

(** Three chromosomes of fitness 1, 4, 4 and a scratch buffer. *)
Definition sample_population : Population :=
  let c k f := Some {| chrom_id := k; chrom_len := 13; fitness := f;
                       chrom_str := "c" |} in
  {| size := 3; head := 6; genes := 1; linker := identity_linker; age := 5;
     population := [c 0 1%Z; c 1 4%Z; c 2 4%Z];
     _next_pop := [None; None; None];
     header := make_header 13 |}.

End PopulationSamples.

(** * Properties *)

(** ** The coding region *)

Section Coding.
Import karva.
Implicit Types (alleles l : list allele) (a : allele).

Lemma required_app l k : required (l ++ k) = required l + required k.
Proof. apply sum_list_with_app. Qed.

Lemma required_take_add l i n :
  required (take (i + n) l) = required (take i l) + required (take n (drop i l)).
Proof. by rewrite <- take_take_drop, required_app. Qed.

Lemma required_take_mono l i j :
  i ≤ j → required (take i l) ≤ required (take j l).
Proof.
  intros Hij. replace j with (i + (j - i)) by lia.
  rewrite required_take_add. lia.
Qed.

Lemma required_take_S l i a :
  l !! i = Some a → required (take (S i) l) = required (take i l) + arity a.
Proof.
  intros Hi. rewrite (take_S_r _ _ _ Hi), required_app. simpl.
  unfold required. simpl. lia.
Qed.

(** One level: the sweep consumes exactly [args] alleles and adds up their
    arities, or runs off the end of the gene. *)
Lemma sweep_spec alleles args : ∀ index next,
  index ≤ length alleles →
  (index + args ≤ length alleles ∧
   sweep alleles args index next =
     Ok (index + args, next + required (take args (drop index alleles))))
  ∨ (length alleles < index + args ∧
     sweep alleles args index next = Raise IndexError).
Proof.
  induction args as [|args IH]; intros index next Hle; simpl.
  - left. split; [lia|]. by rewrite !Nat.add_0_r.
  - unfold getitem. destruct (alleles !! index) as [a|] eqn:Ha; simpl.
    + pose proof (lookup_lt_Some _ _ _ Ha) as Hlt.
      rewrite (drop_S _ _ _ Ha). simpl.
      assert (Hnext : match a with
                      | Fn f => next + co_argcount f
                      | _ => next
                      end = next + arity a) by (destruct a; simpl; lia).
      rewrite Hnext.
      destruct (IH (S index) (next + arity a)) as [[H1 H2]|[H1 H2]]; [lia|..].
      * left. split; [lia|]. rewrite H2. f_equal. f_equal; [lia|].
        unfold required. simpl. lia.
      * right. split; [lia|done].
    + right. split; [|done]. apply lookup_ge_None_1 in Ha. lia.
Qed.

Lemma while_args_spec alleles : ∀ fuel index args,
  level_inv alleles index args →
  length alleles < fuel + index →
  (∃ i, while_args fuel alleles index args = Ok i ∧ level_inv alleles i 0)
  ∨ (while_args fuel alleles index args = Raise IndexError ∧
     ∀ k, 1 ≤ k ≤ length alleles → k < 1 + required (take k alleles)).
Proof.
  induction fuel as [|fuel IH]; intros index args Hinv Hfuel.
  - destruct Hinv as (Hle & _). lia.
  - destruct args as [|args']; [left; eexists; split; [done|done]|].
    set (args := S args') in *.
    assert (Hpos : 0 < args) by (unfold args; lia).
    destruct Hinv as (Hle & Hsum & Hopen).
    assert (Hopen' : ∀ k, 1 ≤ k → k < index + args →
                          k < 1 + required (take k alleles)).
    { intros k Hk1 Hk2. destruct (decide (k < index)) as [?|Hge].
      - apply Hopen. lia.
      - pose proof (required_take_mono alleles index k). lia. }
    change (while_args (S fuel) alleles index args)
      with (let* level := sweep alleles args index 0 in
            while_args fuel alleles level.1 level.2).
    destruct (sweep_spec alleles args index 0 Hle) as [[H1 H2]|[H1 H2]];
      rewrite H2; simpl.
    + apply IH; [|lia]. split; [done|]. split.
      * rewrite required_take_add. lia.
      * intros k [Hk1 Hk2]. by apply Hopen'.
    + right. split; [done|]. intros k [Hk1 Hk2]. apply Hopen'; lia.
Qed.

Lemma level_inv_start alleles : level_inv alleles 0 1.
Proof. split; [lia|]. split; [done|]. intros k ?. lia. Qed.

Lemma level_inv_closes alleles i :
  level_inv alleles i 0 →
  ∃ c, i = S c ∧ closes alleles c ∧ ∀ c', closes alleles c' → c ≤ c'.
Proof.
  intros (Hle & Hsum & Hopen). destruct i as [|c]; [lia|].
  exists c. split; [done|]. split; [split; lia|].
  intros c' [Hc1 Hc2]. destruct (decide (c ≤ c')) as [|Hlt]; [done|].
  specialize (Hopen (S c')). lia.
Qed.

Lemma find_coding_cases alleles :
  (∃ c, _find_coding alleles = Ok (Z.of_nat c) ∧ closes alleles c ∧
        ∀ c', closes alleles c' → c ≤ c')
  ∨ (_find_coding alleles = Raise IndexError ∧ ¬ well_formed alleles).
Proof.
  unfold _find_coding.
  destruct (while_args_spec alleles (S (length alleles)) 0 1
              (level_inv_start alleles)) as [(i & Hi & Hinv)|[Hr Hopen]];
    [lia|..]; rewrite ?Hi, ?Hr; simpl.
  - destruct (level_inv_closes _ _ Hinv) as (c & -> & Hc & Hmin).
    left. exists c. split; [f_equal; lia|done].
  - right. split; [done|]. intros (c & Hc1 & Hc2).
    specialize (Hopen (S c)). lia.
Qed.

(** The [while] loop of [_find_coding] always comes to an end. *)
Lemma find_coding_finishes alleles : _find_coding alleles ≠ Unfinished.
Proof.
  destruct (find_coding_cases alleles) as [(c & -> & _)|[-> _]]; done.
Qed.

Lemma find_coding_Ok alleles (z : Z) :
  _find_coding alleles = Ok z →
  ∃ c, z = Z.of_nat c ∧ closes alleles c ∧ ∀ c', closes alleles c' → c ≤ c'.
Proof.
  intros Hz. destruct (find_coding_cases alleles) as [(c & Hc & H)|[Hr _]].
  - exists c. split; [congruence|done].
  - congruence.
Qed.

(** C1: for a well-formed gene the coding index computed at construction is
    a valid position of the allele list, the prefix it ends is closed (its
    functions require exactly the alleles that follow the root in the
    prefix), and no shorter prefix is closed. *)
Theorem coding_closes_minimal alleles :
  well_formed alleles →
  ∃ c : nat,
    (∀ h hd, ∃ h',
       __init__ h alleles hd = Ok (length (genes h), h') ∧
       coding <$> genes h' !! length (genes h) = Some (Z.of_nat c)) ∧
    (0 ≤ Z.of_nat c < Z.of_nat (length alleles))%Z ∧
    closes alleles c ∧
    ∀ c', closes alleles c' → c ≤ c'.
Proof.
  intros Hwf.
  destruct (find_coding_cases alleles) as [(c & Hc & Hcl & Hmin)|[_ Hn]];
    [|contradiction].
  exists c. split; [|split; [destruct Hcl; lia|done]].
  intros h hd. unfold __init__. rewrite Hc. simpl. eexists. split; [done|].
  simpl. by rewrite lookup_app_r, Nat.sub_diag by lia.
Qed.

Lemma coding_closes_minimal_witness :
  ∃ c : nat,
    (∀ h hd, ∃ h',
       __init__ h [Fn add; Name "x"; Const 3] hd = Ok (length (genes h), h') ∧
       coding <$> genes h' !! length (genes h) = Some (Z.of_nat c)) ∧
    (0 ≤ Z.of_nat c < Z.of_nat (length [Fn add; Name "x"; Const 3]))%Z ∧
    closes [Fn add; Name "x"; Const 3] c ∧
    ∀ c', closes [Fn add; Name "x"; Const 3] c' → c ≤ c'.
Proof.
  apply (coding_closes_minimal [Fn add; Name "x"; Const 3]).
  exists 2. split; [simpl; lia|reflexivity].
Defined.

End Coding.

(** ** Evaluation stays within bounds *)

Section Bounds.
Import karva.
Implicit Types (alleles : list allele) (obj : context).

Lemma tbind_lift_Ok {A B} (a : A) (k : A → traced B) :
  tbind (lift (Ok a)) k = k a.
Proof. unfold tbind, lift. simpl. by destruct (k a). Qed.

Lemma tbind_tret {A B} (a : A) (k : A → traced B) : tbind (tret a) k = k a.
Proof. apply tbind_lift_Ok. Qed.

Lemma tbind_lift_Raise {A B} e (k : A → traced B) :
  tbind (lift (Raise e)) k = (Raise e, []).
Proof. done. Qed.

Lemma tbind_emit {B} ev (k : unit → traced B) :
  tbind (emit ev) k = ((k tt).1, ev :: (k tt).2).
Proof. done. Qed.

Lemma slice_bound_id len (i : nat) :
  i ≤ len → slice_bound len (Z.of_nat i) = i.
Proof.
  intros Hi. unfold slice_bound.
  destruct (Z.ltb_spec (Z.of_nat i) 0); lia.
Qed.

Lemma length_getslice {A} (l : list A) (a b : nat) :
  a ≤ b → b ≤ length l →
  length (getslice l (Z.of_nat a) (Z.of_nat b)) = b - a.
Proof.
  intros Hab Hb. unfold getslice.
  rewrite !slice_bound_id by lia.
  rewrite length_take, length_drop. lia.
Qed.

Lemma in_bounds_tbind {A B} n (m : traced A) (k : A → traced B) :
  in_bounds n m → (∀ a, m.1 = Ok a → in_bounds n (k a)) →
  in_bounds n (tbind m k).
Proof.
  intros (H1 & H2 & H3) Hk. unfold tbind.
  destruct m as [[a|e|] t]; simpl in *;
    [|split; [intros [= ->]; by destruct H1
             |split; [first [done|by destruct H2]|exact H3]]..].
  destruct (Hk a eq_refl) as (K1 & K2 & K3).
  split; [done|]. split; [done|]. intros lo hi Hin.
  apply elem_of_app in Hin as [Hin|Hin]; [by apply H3|by apply K3].
Qed.

Lemma in_bounds_lift {A} n (o : outcome A) :
  o ≠ Raise IndexError → o ≠ Unfinished → in_bounds n (lift o).
Proof.
  intros H1 H2. split; [done|]. split; [done|]. intros lo hi Hin.
  by apply elem_of_nil in Hin.
Qed.

Lemma in_bounds_tret {A} n (a : A) : in_bounds n (tret a).
Proof. by apply in_bounds_lift. Qed.

Lemma in_bounds_emit n ev :
  (∀ lo hi, ev = ESlice lo hi → (0 ≤ lo ∧ lo ≤ hi ∧ hi ≤ n)%Z) →
  in_bounds n (emit ev).
Proof.
  intros Hev. split; [done|]. split; [done|]. intros lo hi Hin.
  apply list_elem_of_singleton in Hin. by apply Hev.
Qed.

Lemma tbind_Ok {A B} (m : traced A) (k : A → traced B) b :
  (tbind m k).1 = Ok b → ∃ a, m.1 = Ok a ∧ (k a).1 = Ok b.
Proof.
  unfold tbind. destruct m as [[a|e|] t]; simpl; [|done..]. eauto.
Qed.

Lemma in_bounds_value n obj a : in_bounds n (_value obj a).
Proof.
  destruct a as [f|s|z]; simpl; try apply in_bounds_tret.
  unfold getattr. apply in_bounds_tbind; [by apply in_bounds_emit|].
  intros _ _. apply in_bounds_lift; by destruct (attrs obj !! s).
Qed.

(** The first step of [__call__] builds one result slot per allele of the
    gene. *)
Lemma comprehension_length obj alleles vs :
  (comprehension obj alleles).1 = Ok vs → length vs = length alleles.
Proof.
  revert vs. induction alleles as [|a rest IH]; intros vs; simpl.
  - intros [= <-]. done.
  - intros Hvs. apply tbind_Ok in Hvs as (v & _ & Hvs).
    apply tbind_Ok in Hvs as (vs' & Hvs' & Hvs).
    injection Hvs as <-. simpl. f_equal. by apply IH.
Qed.

Lemma in_bounds_comprehension n obj alleles :
  in_bounds n (comprehension obj alleles).
Proof.
  induction alleles as [|a rest IH]; simpl; [apply in_bounds_tret|].
  apply in_bounds_tbind; [apply in_bounds_value|]. intros v _.
  apply in_bounds_tbind; [done|]. intros vs _. apply in_bounds_tret.
Qed.

Lemma apply_cases f args :
  length args = co_argcount f →
  apply f args ≠ Raise IndexError ∧ apply f args ≠ Unfinished ∧
  apply f args ≠ Raise TypeError.
Proof.
  intros Hlen. unfold apply. rewrite decide_True by done.
  by destruct (code f args).
Qed.

Lemma walk_step alleles i evaluation index a :
  alleles !! i = Some a →
  walk alleles (S i) evaluation index =
  match a with
  | Fn f =>
      let num := Z.of_nat (co_argcount f) in
      let+ _ := emit (ESlice (index - num) index) in
      let args := getslice evaluation (index - num) index in
      let+ r := lift (apply f args) in
      let+ evaluation' := lift (setitem evaluation i r) in
      walk alleles i evaluation' (index - num)%Z
  | _ => walk alleles i evaluation index
  end.
Proof.
  intros Ha. simpl. unfold getitem. rewrite Ha. apply tbind_lift_Ok.
Qed.

(** The backward walk: entering position [n] the cursor is one past the
    alleles that the functions before [n] require. *)
Lemma walk_in_bounds alleles (c : nat) :
  closes alleles c →
  ∀ n evaluation index,
    n ≤ S c →
    length evaluation = length alleles →
    index = Z.of_nat (1 + required (take n alleles)) →
    in_bounds (Z.of_nat c + 1) (walk alleles n evaluation index) ∧
    ∀ st, (walk alleles n evaluation index).1 = Ok st →
          length st.1 = length alleles.
Proof.
  intros [Hc Hreq]. induction n as [|i IH]; intros evaluation index Hn Hlen Hidx.
  - simpl. split; [apply in_bounds_tret|]. by intros st [= <-].
  - destruct (lookup_lt_is_Some_2 alleles i) as [a Ha]; [lia|].
    pose proof (required_take_S _ _ _ Ha) as HS.
    pose proof (required_take_mono alleles (S i) (S c)) as Hmono.
    rewrite (walk_step _ _ _ _ _ Ha).
    destruct a as [f|s|z]; simpl in HS;
      [|apply IH; [lia|done|lia]..].
    set (lo := (index - Z.of_nat (co_argcount f))%Z).
    assert (Hlo : lo = Z.of_nat (1 + required (take i alleles))) by lia.
    assert (Hargs : length (getslice evaluation lo index) = co_argcount f).
    { rewrite Hlo, Hidx, length_getslice; lia. }
    destruct (apply_cases f _ Hargs) as (Ha1 & Ha2 & _).
    split.
    + apply in_bounds_tbind.
      { apply in_bounds_emit. intros ? ? [= <- <-]. lia. }
      intros _ _. apply in_bounds_tbind; [by apply in_bounds_lift|].
      intros r _. unfold setitem. rewrite decide_True by lia.
      rewrite tbind_lift_Ok. apply IH; [lia|by rewrite length_insert|done].
    + intros st Hst. rewrite tbind_emit in Hst. simpl in Hst.
      apply tbind_Ok in Hst as (r & _ & Hst).
      unfold setitem in Hst. rewrite decide_True in Hst by lia.
      rewrite tbind_lift_Ok in Hst.
      eapply IH; [| |done|exact Hst]; [lia|by rewrite length_insert].
Qed.

Lemma call_body_in_bounds alleles (c : nat) hd m obj :
  closes alleles c →
  in_bounds (Z.of_nat c + 1)
    (call_body {| alleles := alleles; head := hd; coding := Z.of_nat c;
                  memo := m |} obj).
Proof.
  intros Hc. unfold call_body. simpl.
  apply in_bounds_tbind; [apply in_bounds_comprehension|].
  intros evaluation Hev. apply comprehension_length in Hev.
  replace (Z.to_nat (Z.of_nat c + 1)) with (S c) by lia.
  destruct (walk_in_bounds alleles c Hc (S c) evaluation (Z.of_nat c + 1))
    as [Hw Hlen]; [lia|done|destruct Hc; lia|].
  apply in_bounds_tbind; [done|]. intros st Hst. apply Hlen in Hst.
  destruct Hc as [Hc _]. unfold getitem.
  destruct (lookup_lt_is_Some_2 st.1 0) as [v ->]; [lia|].
  by apply in_bounds_lift.
Qed.

Lemma tbind_fst {A B} (m : traced A) (k : A → traced B) :
  (tbind m k).1 = match m.1 with
                  | Ok a => (k a).1
                  | Raise e => Raise e
                  | Unfinished => Unfinished
                  end.
Proof. unfold tbind. by destruct m.1. Qed.

(** Step 1 returns, or fails on the first name the context lacks. *)
Lemma comprehension_outcome obj alleles :
  (∃ vs, (comprehension obj alleles).1 = Ok vs) ∨
  (∃ s, s ∈ terminals alleles ∧ attrs obj !! s = None ∧
        (comprehension obj alleles).1 = Raise (AttributeError s)).
Proof.
  induction alleles as [|a rest IH]; [left; by eexists|].
  cbn [comprehension]. rewrite tbind_fst.
  assert (Hrest : ∀ v,
    (∃ vs, (let+ vs := comprehension obj rest in tret (v :: vs)).1 = Ok vs) ∨
    (∃ s, s ∈ terminals rest ∧ attrs obj !! s = None ∧
          (let+ vs := comprehension obj rest in tret (v :: vs)).1
          = Raise (AttributeError s))).
  { intros v. rewrite tbind_fst.
    destruct IH as [(vs & ->)|(s & Hs & Hnone & ->)]; [left; by eexists|].
    right. by exists s. }
  destruct a as [f|s|z]; cbn [_value tret fst].
  - apply Hrest.
  - unfold getattr. rewrite tbind_fst. cbn [emit lift fst].
    destruct (attrs obj !! s) as [v|] eqn:Hs.
    + destruct (Hrest v) as [?|(s' & Hs' & Hnone & Heq)]; [by left|].
      right. exists s'. split; [|done]. cbn. by apply list_elem_of_further.
    + right. exists s. split; [|done]. cbn. by apply list_elem_of_here.
  - apply Hrest.
Qed.

(** The backward walk of a closed prefix returns, unless the code of one of
    its functions raises. *)
Lemma walk_outcome alleles (c : nat) :
  closes alleles c →
  ∀ n evaluation index,
    n ≤ S c →
    length evaluation = length alleles →
    index = Z.of_nat (1 + required (take n alleles)) →
    (∃ st, (walk alleles n evaluation index).1 = Ok st ∧
           length st.1 = length alleles) ∨
    (∃ f args, Fn f ∈ alleles ∧ length args = co_argcount f ∧
               code f args = None ∧
               (walk alleles n evaluation index).1 = Raise CalleeError).
Proof.
  intros [Hc Hreq]. induction n as [|i IH]; intros evaluation index Hn Hlen Hidx.
  - left. by eexists.
  - destruct (lookup_lt_is_Some_2 alleles i) as [a Ha]; [lia|].
    pose proof (required_take_S _ _ _ Ha) as HS.
    pose proof (required_take_mono alleles (S i) (S c)) as Hmono.
    rewrite (walk_step _ _ _ _ _ Ha).
    destruct a as [f|s|z]; simpl in HS;
      [|apply IH; [lia|done|lia]..].
    set (lo := (index - Z.of_nat (co_argcount f))%Z).
    assert (Hlo : lo = Z.of_nat (1 + required (take i alleles))) by lia.
    assert (Hargs : length (getslice evaluation lo index) = co_argcount f).
    { rewrite Hlo, Hidx, length_getslice; lia. }
    cbv zeta. fold lo. rewrite tbind_emit. cbn [fst].
    rewrite tbind_fst. cbn [lift fst].
    unfold apply. rewrite decide_True by done.
    destruct (code f (getslice evaluation lo index)) as [r|] eqn:Hcode.
    + unfold setitem. rewrite decide_True by lia. rewrite tbind_lift_Ok.
      apply IH; [lia|by rewrite length_insert|done].
    + right. exists f, (getslice evaluation lo index).
      split; [by eapply list_elem_of_lookup_2|done].
Qed.

(** For a well-formed gene an evaluation ends with a value, with the
    [AttributeError] of a missing name, or inside a function's own code:
    never with an [IndexError] or a [TypeError] of its own. *)
Lemma call_body_ends_well alleles (c : nat) hd m obj :
  closes alleles c →
  ends_well alleles obj
    (call_body {| alleles := alleles; head := hd; coding := Z.of_nat c;
                  memo := m |} obj).1.
Proof.
  intros Hc. unfold call_body. cbn [karva.alleles coding].
  rewrite tbind_fst.
  destruct (comprehension_outcome obj alleles)
    as [(evaluation & Hev)|(s & Hs & Hnone & ->)];
    [|right; left; by exists s].
  rewrite Hev. apply comprehension_length in Hev.
  replace (Z.to_nat (Z.of_nat c + 1)) with (S c) by lia.
  rewrite tbind_fst.
  destruct (walk_outcome alleles c Hc (S c) evaluation (Z.of_nat c + 1))
    as [(st & -> & Hlen)|(f & args & Hf & Hargs & Hcode & ->)];
    [lia|done|destruct Hc; lia|..].
  - left. cbn [lift fst]. unfold getitem. destruct Hc as [Hc _].
    destruct (lookup_lt_is_Some_2 st.1 0) as [v ->]; [lia|]. by eexists.
  - right; right. by exists f, args.
Qed.

(** Total correctness of evaluation: a well-formed gene whose terminal
    names are all attributes of the context and whose functions return on
    as many arguments as they take evaluates to a value. *)
Lemma call_body_returns alleles (c : nat) hd m obj :
  closes alleles c →
  (∀ s, s ∈ terminals alleles → is_Some (attrs obj !! s)) →
  (∀ f args, Fn f ∈ alleles → length args = co_argcount f →
             is_Some (code f args)) →
  ∃ v, (call_body {| alleles := alleles; head := hd; coding := Z.of_nat c;
                     memo := m |} obj).1 = Ok v.
Proof.
  intros Hc Hnames Hcode.
  destruct (call_body_ends_well alleles c hd m obj Hc)
    as [?|[(s & Hs & Hnone & _)|(f & args & Hf & Hargs & Hnone & _)]]; [done|..].
  - destruct (Hnames s Hs) as [v Hv]. congruence.
  - destruct (Hcode f args Hf Hargs) as [v Hv]. congruence.
Qed.

(** C10: for a well-formed gene the loop of [_find_coding] ends with its
    index at most the number of alleles and without reading past the end,
    and evaluation on any context raises no [IndexError] while every slice
    it takes from the results array has bounds between 0 and coding + 1. *)
Theorem well_formed_in_bounds alleles :
  well_formed alleles →
  ∃ index : nat,
    while_args (S (length alleles)) alleles 0 1 = Ok index ∧
    index ≤ length alleles ∧
    _find_coding alleles = Ok (Z.of_nat index - 1)%Z ∧
    ∀ hd m obj,
      in_bounds (Z.of_nat index)
        (call_body {| alleles := alleles; head := hd;
                      coding := (Z.of_nat index - 1)%Z; memo := m |} obj).
Proof.
  intros Hwf.
  destruct (while_args_spec alleles (S (length alleles)) 0 1
              (level_inv_start alleles)) as [(i & Hi & Hinv)|[_ Hopen]]; [lia|..].
  - exists i. split; [done|]. split; [by destruct Hinv|].
    split; [unfold _find_coding; by rewrite Hi|].
    destruct (level_inv_closes _ _ Hinv) as (c & -> & Hc & _).
    intros hd m obj.
    replace (Z.of_nat (S c) - 1)%Z with (Z.of_nat c) by lia.
    replace (Z.of_nat (S c)) with (Z.of_nat c + 1)%Z by lia.
    by apply call_body_in_bounds.
  - destruct Hwf as (c & Hc1 & Hc2). specialize (Hopen (S c)). lia.
Qed.

Lemma well_formed_in_bounds_witness :
  ∃ index : nat,
    while_args 4 [Fn add; Name "x"; Const 3] 0 1 = Ok index ∧
    index ≤ 3 ∧
    _find_coding [Fn add; Name "x"; Const 3] = Ok (Z.of_nat index - 1)%Z ∧
    ∀ hd m obj,
      in_bounds (Z.of_nat index)
        (call_body {| alleles := [Fn add; Name "x"; Const 3]; head := hd;
                      coding := (Z.of_nat index - 1)%Z; memo := m |} obj).
Proof.
  apply (well_formed_in_bounds [Fn add; Name "x"; Const 3]).
  exists 2. split; [simpl; lia|reflexivity].
Defined.

End Bounds.

(** ** Evaluation and rendering *)

Section Evaluation.
Import karva.
Implicit Types (alleles : list allele) (obj : context) (g : KarvaGene).

Lemma append_assoc (s t u : string) : (s +:+ t) +:+ u = s +:+ t +:+ u.
Proof.
  induction s as [|ch s IH]; [done|].
  change (String ch ((s +:+ t) +:+ u) = String ch (s +:+ t +:+ u)).
  by rewrite IH.
Qed.

(** The body of [__call__] on [add x 3]: one look-up, one slice, 8. *)
Lemma call_body_add_x_3 (f : func) obj m :
  co_argcount f = 2 →
  (∀ a b, code f [VNum a; VNum b] = Some (VNum (a + b))) →
  attrs obj !! "x" = Some (VNum 5) →
  call_body {| alleles := [Fn f; Name "x"; Const 3]; head := 1;
               coding := 2; memo := m |} obj
  = (Ok (VNum 8), [EGetattr "x"; ESlice 1 3]).
Proof.
  intros Har Hcode Hx. unfold call_body. cbn [alleles coding].
  assert (comprehension obj [Fn f; Name "x"; Const 3]
          = (Ok [VNone; VNum 5; VNum 3], [EGetattr "x"])) as ->.
  { unfold comprehension, _value, getattr. rewrite Hx. reflexivity. }
  assert (walk [Fn f; Name "x"; Const 3] 3 [VNone; VNum 5; VNum 3] 3
          = (Ok ([VNum 8; VNum 5; VNum 3], 1%Z), [ESlice 1 3])) as Hwalk.
  { rewrite (walk_step _ _ _ _ (Const 3)) by done.
    rewrite (walk_step _ _ _ _ (Name "x")) by done.
    rewrite (walk_step _ _ _ _ (Fn f)) by done.
    cbv zeta. rewrite Har. unfold apply.
    change (getslice [VNone; VNum 5; VNum 3] (3 - Z.of_nat 2) 3)
      with [VNum 5; VNum 3].
    rewrite Har, decide_True, Hcode by done. reflexivity. }
  change (Z.to_nat (2 + 1)) with 3. change (2 + 1)%Z with 3%Z.
  unfold tbind at 1. cbn [fst snd]. rewrite Hwalk. reflexivity.
Qed.

(** C2: the gene [add, 'x', 3] with head 1, [add] taking two arguments and
    adding them: its coding index is 2; it is rendered as the display name
    of [add] (in braces unless it is one character long) followed by [x3];
    and called on a context whose [x] is 5 it returns 8. *)
Theorem add_x_3_example (f : func) obj :
  co_argcount f = 2 →
  (∀ a b, code f [VNum a; VNum b] = Some (VNum (a + b))) →
  attrs obj !! "x" = Some (VNum 5) →
  let alleles := [Fn f; Name "x"; Const 3] in
  let name := display (Fn f) in
  ∃ g h,
    __init__ empty_heap alleles 1 = Ok (0, h) ∧
    genes h !! 0 = Some g ∧
    coding g = 2%Z ∧
    (String.length name ≠ 1 → __repr__ g = "{" +:+ name +:+ "}x3") ∧
    (String.length name = 1 → __repr__ g = name +:+ "x3") ∧
    (call_body g obj).1 = Ok (VNum 8) ∧
    (__call__ h 0 obj).1.1 = Ok (VNum 8).
Proof.
  intros Har Hcode Hx alleles name.
  assert (Hcoding : _find_coding alleles = Ok 2%Z).
  { unfold _find_coding, alleles. simpl. rewrite Har. reflexivity. }
  unfold __init__. rewrite Hcoding. simpl.
  eexists _, _. split; [reflexivity|]. split; [reflexivity|].
  split; [reflexivity|]. subst alleles.
  split; [|split; [|split]].
  - intros Hlen. unfold __repr__. simpl. fold name.
    rewrite decide_False by done. simpl. by rewrite !append_assoc.
  - intros Hlen. unfold __repr__. simpl. fold name.
    rewrite decide_True by done. by rewrite !append_assoc.
  - by rewrite call_body_add_x_3.
  - unfold __call__, memoize.
    cbn [genes dicts lookup list_lookup memo from_option id].
    cbn. rewrite lookup_empty. by rewrite call_body_add_x_3.
Qed.

Lemma add_x_3_example_witness :
  ∃ g h,
    __init__ empty_heap [Fn add; Name "x"; Const 3] 1 = Ok (0, h) ∧
    genes h !! 0 = Some g ∧
    coding g = 2%Z ∧
    (String.length "add" ≠ 1 → __repr__ g = "{add}x3") ∧
    (String.length "add" = 1 → __repr__ g = "addx3") ∧
    (call_body g ctx5).1 = Ok (VNum 8) ∧
    (__call__ h 0 ctx5).1.1 = Ok (VNum 8).
Proof.
  apply (add_x_3_example add ctx5); [reflexivity| |reflexivity].
  intros a b. reflexivity.
Defined.

Lemma tbind_trace_Ok {A B} (m : traced A) (k : A → traced B) a :
  m.1 = Ok a → (tbind m k).2 = m.2 ++ (k a).2.
Proof. intros Hm. unfold tbind. by rewrite Hm. Qed.

Lemma comprehension_trace obj alleles vs :
  (comprehension obj alleles).1 = Ok vs →
  (comprehension obj alleles).2 = EGetattr <$> terminals alleles ∧
  Forall (λ s, is_Some (attrs obj !! s)) (terminals alleles).
Proof.
  revert vs. induction alleles as [|a rest IH]; intros vs; [done|].
  cbn [comprehension]. intros Hvs.
  destruct (tbind_Ok _ _ _ Hvs) as (v & Hv & Hvs').
  destruct (tbind_Ok _ _ _ Hvs') as (vs' & Hrest & _).
  destruct (IH _ Hrest) as [IH1 IH2].
  rewrite (tbind_trace_Ok _ _ _ Hv), (tbind_trace_Ok _ _ _ Hrest), IH1.
  cbn [tret snd]. rewrite app_nil_r.
  destruct a as [f|s|z]; cbn in *; [done| |done].
  unfold getattr, tbind in *. cbn in *.
  destruct (attrs obj !! s) eqn:Hs; [|done].
  split; [done|]. constructor; [by rewrite Hs|done].
Qed.

(** C3, as the code has it: the results array of step 1 has one slot per
    allele of the whole gene, and every terminal name of the gene, also
    beyond the coding region, is looked up on the context (so each must be
    an attribute of it for the evaluation to return); the look-ups come
    first, in allele order. *)
Theorem every_allele_resolved g obj v :
  (call_body g obj).1 = Ok v →
  (∃ vs, (comprehension obj (alleles g)).1 = Ok vs ∧
         length vs = length (alleles g)) ∧
  (∃ rest, (call_body g obj).2 =
           (EGetattr <$> terminals (alleles g)) ++ rest) ∧
  ∀ s, s ∈ terminals (alleles g) →
       EGetattr s ∈ (call_body g obj).2 ∧ is_Some (attrs obj !! s).
Proof.
  unfold call_body. intros Hv.
  destruct (tbind_Ok _ _ _ Hv) as (vs & Hvs & _).
  destruct (comprehension_trace _ _ _ Hvs) as [Htr Hattrs].
  rewrite (tbind_trace_Ok _ _ _ Hvs), Htr.
  split; [exists vs; split; [done|by eapply comprehension_length]|].
  split; [by eexists|].
  intros s Hs. split.
  - apply elem_of_app. left. by apply list_elem_of_fmap_2.
  - by eapply (proj1 (Forall_forall _ _) Hattrs).
Qed.

Lemma every_allele_resolved_witness :
  (∃ vs, (comprehension ctx_xy (alleles gene_xy)).1 = Ok vs ∧
         length vs = length (alleles gene_xy)) ∧
  (∃ rest, (call_body gene_xy ctx_xy).2 =
           (EGetattr <$> terminals (alleles gene_xy)) ++ rest) ∧
  ∀ s, s ∈ terminals (alleles gene_xy) →
       EGetattr s ∈ (call_body gene_xy ctx_xy).2 ∧
       is_Some (attrs ctx_xy !! s).
Proof. apply (every_allele_resolved gene_xy ctx_xy (VNum 8)). reflexivity. Defined.

(** C3 as stated fails: the gene [add x 3 | y] has coding index 2, yet
    evaluating it looks up [y], which occurs only at position 3, and builds
    four result slots. *)
Lemma tail_terminal_is_resolved :
  _find_coding (alleles gene_xy) = Ok (coding gene_xy) ∧
  ¬ resolves_coding_region_only gene_xy ctx_xy ∧
  (∃ vs, (comprehension ctx_xy (alleles gene_xy)).1 = Ok vs ∧
         length vs = 4 ∧ coding gene_xy = 2%Z) ∧
  EGetattr "y" ∈ (call_body gene_xy ctx_xy).2 ∧
  alleles gene_xy !! 3 = Some (Name "y").
Proof.
  assert (Htrace : (call_body gene_xy ctx_xy).2
                   = [EGetattr "x"; EGetattr "y"; ESlice 1 3]) by reflexivity.
  assert (Hy : EGetattr "y" ∈ (call_body gene_xy ctx_xy).2).
  { rewrite Htrace. apply list_elem_of_further, list_elem_of_here. }
  split; [reflexivity|]. split; [|split; [|done]].
  - intros [_ Hnames]. destruct (Hnames "y" Hy) as (i & Hi & Hiy).
    cbn in Hi. destruct i as [|[|[|i]]]; cbn in Hiy; try discriminate. lia.
  - by eexists.
Qed.

(** A name missing from the context makes the call fail even when it lies
    outside the coding region. *)
Example tail_terminal_missing :
  (call_body gene_xy ctx5).1 = Raise (AttributeError "y").
Proof. reflexivity. Qed.

(** The two renderings of the example, by evaluation. *)
Example repr_add_x_3 :
  __repr__ {| alleles := [Fn add; Name "x"; Const 3]; head := 1;
              coding := 2; memo := None |} = "{add}x3".
Proof. reflexivity. Qed.

Example repr_plus_x_3 :
  __repr__ {| alleles := [Fn plus; Name "x"; Const 3]; head := 1;
              coding := 2; memo := None |} = "+x3".
Proof. reflexivity. Qed.

End Evaluation.

(** ** Memoization *)

Section Memo.
Import karva.
Implicit Types (h : heap) (g : nat) (obj : context).

Lemma call_hit h g obj v :
  cached h g (ctx_id obj) = Some v → __call__ h g obj = ((Ok v, []), h).
Proof.
  unfold cached, __call__, memoize. intros Hc.
  destruct (genes h !! g) as [gene|]; [|done]. cbn in Hc.
  destruct (memo gene) as [d|]; [|done]. cbn in Hc.
  cbn [from_option id]. destruct (dicts h !! d) as [cache|]; [|done]. cbn in Hc.
  by rewrite Hc.
Qed.

(** A call that misses the cache enters the body. *)
Lemma call_miss h g obj gene :
  genes h !! g = Some gene →
  (∀ d, memo gene = Some d → is_Some (dicts h !! d)) →
  cached h g (ctx_id obj) = None →
  (__call__ h g obj).1 = (let+ _ := emit EEnter in call_body gene obj).
Proof.
  unfold cached, __call__, memoize. intros Hg Hd Hc. rewrite Hg in *.
  cbn in Hc. destruct (memo gene) as [d|] eqn:Hm; cbn [from_option id].
  - destruct (Hd d eq_refl) as [cache Hcache]. cbn in Hc.
    rewrite Hcache in *. cbn in Hc. rewrite Hc.
    by destruct (let+ _ := emit EEnter in call_body gene obj).1.
  - cbn [dicts]. rewrite lookup_app_r, Nat.sub_diag by lia.
    cbn [lookup list_lookup]. rewrite lookup_empty.
    by destruct (let+ _ := emit EEnter in call_body gene obj).1.
Qed.

(** A call that returns leaves its value in the gene's cache under the
    identity of the context, and no other entry of that gene changes. *)
Lemma call_Ok_caches h g obj v t h1 :
  __call__ h g obj = ((Ok v, t), h1) →
  cached h1 g (ctx_id obj) = Some v ∧
  (∀ k, k ≠ ctx_id obj → cached h1 g k = cached h g k) ∧
  ∃ gene d,
    genes h !! g = Some gene ∧
    genes h1 !! g = Some {| alleles := alleles gene; head := head gene;
                            coding := coding gene; memo := Some d |} ∧
    is_Some (dicts h1 !! d).
Proof.
  unfold __call__, memoize. destruct (genes h !! g) as [gene|] eqn:Hg; [|done].
  pose proof (lookup_lt_Some _ _ _ Hg) as Hlt.
  set (d := default (length (dicts h)) (memo gene)).
  set (h0 := match memo gene with Some _ => h | None => _ end).
  set (gene' := {| alleles := alleles gene; head := head gene;
                   coding := coding gene; memo := Some d |}).
  assert (Hg0 : genes h0 !! g = Some gene').
  { unfold h0, gene', d. destruct gene as [al hd c [d'|]]; cbn.
    - done.
    - by apply list_lookup_insert_eq. }
  assert (Hk0 : ∀ k, cached h0 g k = cached h g k).
  { intros k. unfold cached. rewrite Hg0, Hg. cbn.
    unfold h0, d. destruct (memo gene) as [d'|]; cbn; [done|].
    rewrite lookup_app_r, Nat.sub_diag by lia. cbn.
    by rewrite lookup_empty. }
  destruct (dicts h0 !! d) as [cache|] eqn:Hd; [|done].
  pose proof (lookup_lt_Some _ _ _ Hd) as Hdlt.
  assert (Hck : ∀ k, cached h0 g k = cache !! k).
  { intros k. unfold cached. rewrite Hg0. cbn. by rewrite Hd. }
  destruct (cache !! ctx_id obj) as [w|] eqn:Hw.
  - intros [= -> <- <-]. split; [by rewrite Hck|]. split; [intros; apply Hk0|].
    exists gene, d. by rewrite Hd.
  - destruct (let+ _ := emit EEnter in call_body gene obj) as [[w| |] t'];
      cbn; [|done..].
    intros [= -> <- <-].
    assert (Hnew : ∀ k, cached
              {| genes := genes h0;
                 dicts := <[d:=<[ctx_id obj:=v]> cache]> (dicts h0) |} g k
              = <[ctx_id obj:=v]> cache !! k).
    { intros k. unfold cached. cbn [genes dicts]. rewrite Hg0. cbn.
      by rewrite list_lookup_insert_eq. }
    split; [by rewrite Hnew, lookup_insert_eq|].
    split.
    + intros k Hk. by rewrite Hnew, lookup_insert_ne, <- Hck, Hk0.
    + exists gene, d. cbn [genes dicts]. split; [done|]. split; [done|].
      rewrite list_lookup_insert_eq by done. by eexists.
Qed.

(** Evaluation reads the context through its attributes only. *)
Lemma call_body_attrs gene obj obj' :
  attrs obj' = attrs obj → call_body gene obj' = call_body gene obj.
Proof.
  intros Hattrs. unfold call_body.
  assert (∀ al, comprehension obj' al = comprehension obj al) as ->; [|done].
  induction al as [|a rest IH]; [done|]. cbn [comprehension]. rewrite IH.
  assert (_value obj' a = _value obj a) as ->; [|done].
  destruct a; [done| |done]. unfold _value, getattr. by rewrite Hattrs.
Qed.

(** C7: a second call of the same gene on the same context object returns
    the cached first result without entering the body, and a call on
    another object that was not evaluated before, with the same attribute
    values, enters the body and evaluates on its own; afterwards each
    identity has its own cache entry. *)
Theorem memo_by_identity h g obj v t h1 :
  __call__ h g obj = ((Ok v, t), h1) →
  __call__ h1 g obj = ((Ok v, []), h1) ∧
  ∀ obj',
    ctx_id obj' ≠ ctx_id obj →
    attrs obj' = attrs obj →
    cached h g (ctx_id obj') = None →
    ∃ gene,
      genes h1 !! g = Some gene ∧
      (__call__ h1 g obj').1 = (let+ _ := emit EEnter in call_body gene obj') ∧
      call_body gene obj' = call_body gene obj ∧
      ∀ v' t' h2,
        __call__ h1 g obj' = ((Ok v', t'), h2) →
        cached h2 g (ctx_id obj') = Some v' ∧
        cached h2 g (ctx_id obj) = Some v.
Proof.
  intros Hcall.
  destruct (call_Ok_caches _ _ _ _ _ _ Hcall)
    as (Hv & Hframe & gene & d & Hg & Hg1 & Hd).
  split; [by apply call_hit|].
  intros obj' Hid Hattrs Hnone. eexists. split; [exact Hg1|].
  split; [|split].
  - apply call_miss; [done|by intros ? [= <-]|]. by rewrite Hframe.
  - by apply call_body_attrs.
  - intros v' t' h2 Hcall'.
    destruct (call_Ok_caches _ _ _ _ _ _ Hcall') as (Hv' & Hframe' & _).
    split; [done|]. rewrite Hframe' by done. done.
Qed.

Lemma memo_by_identity_witness :
  let h := {| genes := [{| alleles := [Fn add; Name "x"; Const 3];
                           head := 1; coding := 2; memo := None |}];
              dicts := [] |} in
  let h1 := (__call__ h 0 ctx5).2 in
  __call__ h1 0 ctx5 = ((Ok (VNum 8), []), h1) ∧
  ∀ obj',
    ctx_id obj' ≠ ctx_id ctx5 →
    attrs obj' = attrs ctx5 →
    cached h 0 (ctx_id obj') = None →
    ∃ gene,
      genes h1 !! 0 = Some gene ∧
      (__call__ h1 0 obj').1 = (let+ _ := emit EEnter in call_body gene obj') ∧
      call_body gene obj' = call_body gene ctx5 ∧
      ∀ v' t' h2,
        __call__ h1 0 obj' = ((Ok v', t'), h2) →
        cached h2 0 (ctx_id obj') = Some v' ∧
        cached h2 0 (ctx_id ctx5) = Some (VNum 8).
Proof.
  intros h h1.
  apply (memo_by_identity h 0 ctx5 (VNum 8) [EEnter; EGetattr "x"; ESlice 1 3]).
  reflexivity.
Defined.

(** The two sample objects: equal attribute values, one evaluation each. *)
Example two_objects_two_evaluations :
  let h := {| genes := [{| alleles := [Fn add; Name "x"; Const 3];
                           head := 1; coding := 2; memo := None |}];
              dicts := [] |} in
  let r1 := __call__ h 0 ctx5 in
  let r2 := __call__ r1.2 0 ctx5 in
  let r3 := __call__ r2.2 0 ctx5' in
  r1.1 = (Ok (VNum 8), [EEnter; EGetattr "x"; ESlice 1 3]) ∧
  r2.1 = (Ok (VNum 8), []) ∧
  r3.1 = (Ok (VNum 8), [EEnter; EGetattr "x"; ESlice 1 3]) ∧
  cached r3.2 0 7 = Some (VNum 8) ∧ cached r3.2 0 8 = Some (VNum 8) ∧
  cached r2.2 0 8 = None.
Proof. vm_compute. repeat split. Qed.

End Memo.

(** ** Derivation *)

Section Derive.
Import karva.
Implicit Types (h : heap) (g : nat) (self : KarvaGene) (obj : context)
  (ch : nat * list allele) (changes : list (nat * list allele))
  (st : option (list allele) * bool).

Lemma differs_nonempty self ch : differs self ch = true → ch.2 ≠ [].
Proof.
  unfold differs. destruct ch as [index [|a repl]]; [|done]. cbn.
  unfold getslice. rewrite Z.add_0_r, Nat.sub_diag. by rewrite take_0.
Qed.

Lemma derive_step_differs self st ch :
  differs self ch = true →
  truthy (derive_step self st ch).1 = true ∧
  (derive_step self st ch).2 =
    (if st.2 && bool_decide (Z.of_nat ch.1 ≤ coding self)%Z then false
     else st.2).
Proof.
  intros Hd. pose proof (differs_nonempty _ _ Hd) as Hne.
  unfold derive_step. rewrite Hd. cbn [fst snd]. split; [|done].
  destruct ch as [index [|a repl]]; [done|]. cbn [fst snd].
  destruct (truthy st.1); unfold setslice.
  - by destruct (take _ _).
  - by destruct (getslice _ _ _).
Qed.

Lemma derive_step_same self st ch :
  differs self ch = false → derive_step self st ch = st.
Proof. intros Hd. unfold derive_step. by rewrite Hd. Qed.

Lemma fold_truthy self changes : ∀ st,
  truthy st.1 = true → truthy (foldl (derive_step self) st changes).1 = true.
Proof.
  induction changes as [|ch changes IH]; intros st Hst; [done|].
  cbn [foldl]. apply IH. destruct (differs self ch) eqn:Hd.
  - by apply derive_step_differs.
  - by rewrite derive_step_same.
Qed.

Lemma fold_not_same self changes : ∀ st,
  st.2 = false → (foldl (derive_step self) st changes).2 = false.
Proof.
  induction changes as [|ch changes IH]; intros st Hst; [done|].
  cbn [foldl]. apply IH. destruct (differs self ch) eqn:Hd.
  - rewrite (proj2 (derive_step_differs _ st _ Hd)), Hst. done.
  - by rewrite derive_step_same.
Qed.

(** Edits that change nothing leave the loop where it started. *)
Lemma fold_no_change self changes st :
  Forall (λ ch, differs self ch = false) changes →
  foldl (derive_step self) st changes = st.
Proof.
  intros Hall. revert st. induction Hall as [|ch changes Hd _ IH]; intros st;
    [done|].
  cbn [foldl]. by rewrite derive_step_same.
Qed.

(** Some edit is an actual change: the loop ends with a list in [new]. *)
Lemma fold_some_change self changes : ∀ st,
  Exists (λ ch, differs self ch = true) changes →
  truthy (foldl (derive_step self) st changes).1 = true.
Proof.
  induction changes as [|ch changes IH]; intros st Hex;
    [by apply Exists_nil in Hex|].
  cbn [foldl]. destruct (differs self ch) eqn:Hd.
  - apply fold_truthy. by apply derive_step_differs.
  - apply Exists_cons in Hex as [Hex|Hex]; [congruence|].
    rewrite derive_step_same by done. by apply IH.
Qed.

(** Actual changes all beyond the coding region: [same] stays as it was. *)
Lemma fold_tail_changes self changes : ∀ st,
  Forall (λ ch, differs self ch = true → (coding self < Z.of_nat ch.1)%Z)
    changes →
  (foldl (derive_step self) st changes).2 = st.2.
Proof.
  induction changes as [|ch changes IH]; intros st Hall; [done|].
  apply Forall_cons in Hall as [Hch Hall]. cbn [foldl].
  rewrite IH by done. destruct (differs self ch) eqn:Hd.
  - rewrite (proj2 (derive_step_differs _ st _ Hd)).
    rewrite bool_decide_false by (specialize (Hch eq_refl); lia).
    by rewrite andb_false_r.
  - by rewrite derive_step_same.
Qed.

(** An actual change at or before the coding index: [same] ends false. *)
Lemma fold_coding_change self changes : ∀ st,
  Exists (λ ch, differs self ch = true ∧ (Z.of_nat ch.1 ≤ coding self)%Z)
    changes →
  (foldl (derive_step self) st changes).2 = false.
Proof.
  induction changes as [|ch changes IH]; intros st Hex;
    [by apply Exists_nil in Hex|].
  cbn [foldl]. apply Exists_cons in Hex as [[Hd Hle]|Hex]; [|by apply IH].
  apply fold_not_same.
  rewrite (proj2 (derive_step_differs _ st _ Hd)).
  rewrite bool_decide_true by done. by destruct st.2.
Qed.

Lemma truthy_Some (new : option (list allele)) :
  truthy new = true → new = Some (default [] new) ∧ default [] new ≠ [].
Proof. by destruct new as [[|a l]|]. Qed.

(** C6: when every edit's replacement equals the alleles the receiver
    already holds at that range (the empty edit list included), [derive]
    returns the receiver itself, the very same object, and allocates
    nothing. *)
Theorem derive_no_change_is_self h g self changes :
  genes h !! g = Some self →
  Forall (λ ch, alleles_eqb
                  (getslice (alleles self) (Z.of_nat ch.1)
                     (Z.of_nat ch.1 + Z.of_nat (length ch.2))) ch.2 = true)
    changes →
  derive h g changes = (Ok g, h).
Proof.
  intros Hg Hall. unfold derive, derive_loop. rewrite Hg.
  rewrite fold_no_change; [done|].
  eapply Forall_impl; [exact Hall|]. intros ch Heq. unfold differs.
  by rewrite Heq.
Qed.

Lemma derive_no_change_is_self_witness :
  let self := {| alleles := [Fn add; Name "x"; Const 3]; head := 1;
                 coding := 2; memo := None |} in
  let h := {| genes := [self]; dicts := [] |} in
  derive h 0 [(1, [Name "x"; Const 3]); (0, [Fn add]); (5, [])] = (Ok 0, h).
Proof.
  intros self h.
  apply (derive_no_change_is_self h 0 self); [reflexivity|].
  repeat constructor.
Defined.

Lemma cached_alloc h g k gene :
  g < length (genes h) →
  cached {| genes := genes h ++ [gene]; dicts := dicts h |} g k = cached h g k.
Proof. intros Hg. unfold cached. cbn [genes dicts]. by rewrite lookup_app_l. Qed.

Lemma cached_new h k gene :
  cached {| genes := genes h ++ [gene]; dicts := dicts h |}
    (length (genes h)) k
  = d ← memo gene; cache ← dicts h !! d; cache !! k.
Proof.
  unfold cached. cbn [genes dicts].
  by rewrite lookup_app_r, Nat.sub_diag by lia.
Qed.

(** C4: when every edit that actually changes the receiver starts beyond
    its coding index, [derive] returns a gene with the receiver's coding
    index on which every context already evaluated on the receiver yields
    the receiver's cached value without entering the body; the gene is a
    new object as soon as some edit is an actual change. *)
Theorem derive_tail_keeps_cache h g self changes :
  genes h !! g = Some self →
  Forall (λ ch, actual_change self ch → (coding self < Z.of_nat ch.1)%Z)
    changes →
  ∃ g' h' gene',
    derive h g changes = (Ok g', h') ∧
    genes h' !! g' = Some gene' ∧
    coding gene' = coding self ∧
    (Exists (actual_change self) changes →
     g' = length (genes h) ∧ g' ≠ g ∧ genes h' !! g = Some self) ∧
    ∀ obj v,
      cached h g (ctx_id obj) = Some v →
      __call__ h' g' obj = ((Ok v, []), h').
Proof.
  intros Hg Hall. pose proof (lookup_lt_Some _ _ _ Hg) as Hlt.
  unfold derive. rewrite Hg. unfold derive_loop.
  rewrite (fold_tail_changes self changes (None, true) Hall). cbn [snd].
  destruct (truthy (foldl (derive_step self) (None, true) changes).1) eqn:Ht.
  - eexists _, _, _. split; [reflexivity|]. cbn [genes].
    split; [by rewrite lookup_app_r, Nat.sub_diag by lia|].
    split; [done|]. split.
    + intros _. split; [done|]. split; [lia|]. by rewrite lookup_app_l.
    + intros obj v Hc. apply call_hit. rewrite cached_new. cbn [memo].
      unfold cached in Hc. by rewrite Hg in Hc.
  - exists g, h, self. split; [done|]. split; [done|]. split; [done|]. split.
    + intros Hex. apply (fold_some_change self changes (None, true)) in Hex.
      congruence.
    + intros obj v Hc. by apply call_hit.
Qed.

Lemma derive_tail_keeps_cache_witness :
  let self := {| alleles := [Fn add; Name "x"; Const 3; Name "y"]; head := 1;
                 coding := 2; memo := Some 0 |} in
  let h := {| genes := [self]; dicts := [{[ 7 := VNum 8 ]}] |} in
  let changes := [(3, [Name "z"]); (0, [Fn add; Name "x"])] in
  ∃ g' h' gene',
    derive h 0 changes = (Ok g', h') ∧
    genes h' !! g' = Some gene' ∧
    coding gene' = 2%Z ∧
    (Exists (actual_change self) changes →
     g' = 1 ∧ g' ≠ 0 ∧ genes h' !! 0 = Some self) ∧
    ∀ obj v,
      cached h 0 (ctx_id obj) = Some v →
      __call__ h' g' obj = ((Ok v, []), h').
Proof.
  intros self h changes.
  apply (derive_tail_keeps_cache h 0 self changes); [reflexivity|].
  repeat constructor; unfold actual_change; cbn; intros; (lia || discriminate).
Defined.

(** C5: when some edit actually changes the receiver at or before its
    coding index, and the edited allele sequence is well-formed, [derive]
    returns a new gene that holds the edited alleles, whose coding index is
    the one [_find_coding] computes for them and whose cache is gone: a
    call on any context, also one cached on the receiver, enters the
    body. *)
Theorem derive_coding_change_recomputes h g self changes new :
  genes h !! g = Some self →
  Exists (λ ch, actual_change self ch ∧ (Z.of_nat ch.1 ≤ coding self)%Z)
    changes →
  (derive_loop self changes).1 = Some new →
  well_formed new →
  ∃ (c : nat) h',
    let gene' := {| alleles := new; head := head self;
                    coding := Z.of_nat c; memo := None |} in
    derive h g changes = (Ok (length (genes h)), h') ∧
    genes h' = genes h ++ [gene'] ∧
    dicts h' = dicts h ∧
    _find_coding new = Ok (Z.of_nat c) ∧
    closes new c ∧
    ∀ obj,
      cached h' (length (genes h)) (ctx_id obj) = None ∧
      (__call__ h' (length (genes h)) obj).1 =
        (let+ _ := emit EEnter in call_body gene' obj).
Proof.
  intros Hg Hex Hnew Hwf.
  destruct (find_coding_cases new) as [(c & Hc & Hcl & _)|[_ Hn]];
    [|contradiction].
  assert (Htruthy : truthy (derive_loop self changes).1 = true).
  { apply fold_some_change. eapply Exists_impl; [exact Hex|]. by intros ch []. }
  exists c. eexists. cbn zeta.
  unfold derive. rewrite Hg, Htruthy.
  unfold derive_loop at 1.
  rewrite (fold_coding_change self changes (None, true) Hex).
  rewrite Hnew. cbn [from_option id]. rewrite Hc.
  split; [reflexivity|]. split; [reflexivity|]. split; [reflexivity|].
  split; [done|]. split; [done|]. intros obj.
  assert (Hnone : cached
            {| genes := genes h ++
                 [{| alleles := new; head := head self; coding := Z.of_nat c;
                     memo := None |}];
               dicts := dicts h |} (length (genes h)) (ctx_id obj) = None)
    by (by rewrite cached_new).
  split; [done|]. apply call_miss; [|done|done]. cbn [genes].
  by rewrite lookup_app_r, Nat.sub_diag by lia.
Qed.

Lemma derive_coding_change_recomputes_witness :
  let self := {| alleles := [Fn add; Name "x"; Const 3; Name "y"]; head := 1;
                 coding := 2; memo := Some 0 |} in
  let h := {| genes := [self]; dicts := [{[ 7 := VNum 8 ]}] |} in
  let new := [Name "y"; Name "x"; Const 3; Name "y"] in
  ∃ (c : nat) h',
    let gene' := {| alleles := new; head := 1; coding := Z.of_nat c;
                    memo := None |} in
    derive h 0 [(0, [Name "y"])] = (Ok 1, h') ∧
    genes h' = [self; gene'] ∧
    dicts h' = dicts h ∧
    _find_coding new = Ok (Z.of_nat c) ∧
    closes new c ∧
    ∀ obj,
      cached h' 1 (ctx_id obj) = None ∧
      (__call__ h' 1 obj).1 = (let+ _ := emit EEnter in call_body gene' obj).
Proof.
  intros self h new.
  apply (derive_coding_change_recomputes h 0 self [(0, [Name "y"])] new).
  - reflexivity.
  - constructor. split; [reflexivity|cbn; lia].
  - reflexivity.
  - exists 0. split; [cbn; lia|reflexivity].
Defined.

(** The coding index depends on the closed prefix only. *)
Lemma find_coding_prefix (old new : list allele) (c : nat) :
  _find_coding old = Ok (Z.of_nat c) →
  take (S c) new = take (S c) old →
  _find_coding new = Ok (Z.of_nat c).
Proof.
  intros Hold Hpre.
  destruct (find_coding_Ok _ _ Hold) as (c1 & Hc1 & [Hlt Hreq] & Hmin).
  assert (c1 = c) as -> by lia. clear Hc1.
  assert (Hlen : S c ≤ length new).
  { apply (f_equal length) in Hpre. rewrite !length_take in Hpre. lia. }
  assert (Hnew : closes new c) by (split; [lia|by rewrite Hpre]).
  destruct (find_coding_cases new) as [(c0 & Hc0 & [Hlt0 Hreq0] & Hmin0)|[_ Hn]];
    [|destruct Hn; by exists c].
  specialize (Hmin0 c Hnew).
  assert (Hpre0 : take (S c0) new = take (S c0) old).
  { replace (S c0) with (S c0 `min` S c) by lia.
    by rewrite <- !take_take, Hpre. }
  assert (closes old c0) as Hold0 by (split; [lia|by rewrite <- Hpre0]).
  specialize (Hmin c0 Hold0). by replace c0 with c in Hc0 by lia.
Qed.

(** Edits beyond the coding index leave the closed prefix as it is. *)
Lemma fold_tail_prefix self changes (c : nat) :
  coding self = Z.of_nat c →
  c < length (alleles self) →
  Forall (λ ch, actual_change self ch → (coding self < Z.of_nat ch.1)%Z)
    changes →
  ∀ st,
    (∀ l, st.1 = Some l → take (S c) l = take (S c) (alleles self)) →
    ∀ l, (foldl (derive_step self) st changes).1 = Some l →
         take (S c) l = take (S c) (alleles self).
Proof.
  intros Hcoding Hc. induction 1 as [|ch changes Hch _ IH]; intros st Hst;
    [done|].
  cbn [foldl]. apply IH. intros l. unfold derive_step.
  destruct (differs self ch) eqn:Hd; [|apply Hst].
  specialize (Hch Hd). cbn [fst]. intros [= <-].
  assert (Hidx : S c ≤ ch.1) by lia.
  destruct (truthy st.1) eqn:Ht.
  - destruct (truthy_Some _ Ht) as [Hsome _].
    specialize (Hst _ Hsome). set (l0 := default [] st.1) in *.
    assert (Hl0 : S c ≤ length l0).
    { apply (f_equal length) in Hst. rewrite !length_take in Hst. lia. }
    unfold setslice.
    assert (Ha : S c ≤ slice_bound (length l0) (Z.of_nat ch.1)).
    { unfold slice_bound.
      destruct (Z.ltb_spec (Z.of_nat ch.1) 0); lia. }
    rewrite take_app_le by (rewrite length_take; lia).
    rewrite take_take. by replace (S c `min` _) with (S c) by lia.
  - unfold getslice.
    assert (Ha : S c ≤ slice_bound (length (alleles self)) (Z.of_nat ch.1)).
    { unfold slice_bound.
      destruct (Z.ltb_spec (Z.of_nat ch.1) 0); lia. }
    replace (slice_bound (length (alleles self)) 0) with 0
      by (unfold slice_bound; cbn; lia).
    rewrite Nat.sub_0_r, drop_0.
    rewrite take_app_le by (rewrite length_take; lia).
    rewrite take_take. by replace (S c `min` _) with (S c) by lia.
Qed.

(** With edits beyond the coding index only, the coding index kept by the
    derived gene is the one [_find_coding] would compute for its alleles. *)
Lemma derive_tail_coding_valid h g self changes g' h' gene' :
  genes h !! g = Some self →
  _find_coding (alleles self) = Ok (coding self) →
  Forall (λ ch, actual_change self ch → (coding self < Z.of_nat ch.1)%Z)
    changes →
  derive h g changes = (Ok g', h') →
  genes h' !! g' = Some gene' →
  _find_coding (alleles gene') = Ok (coding gene').
Proof.
  intros Hg Hself Hall. pose proof (lookup_lt_Some _ _ _ Hg) as Hlt.
  destruct (find_coding_Ok _ _ Hself) as (c & Hc & [Hclt _] & _).
  unfold derive. rewrite Hg. unfold derive_loop.
  rewrite (fold_tail_changes self changes (None, true) Hall). cbn [snd].
  destruct (truthy (foldl (derive_step self) (None, true) changes).1) eqn:Ht.
  - intros [= <- <-]. cbn [genes].
    rewrite lookup_app_r, Nat.sub_diag by lia. intros [= <-].
    cbn [alleles coding]. destruct (truthy_Some _ Ht) as [Hsome _].
    rewrite Hc. apply (find_coding_prefix (alleles self)); [by rewrite <- Hc|].
    by apply (fold_tail_prefix self changes c Hc Hclt Hall (None, true)).
  - intros [= <- <-]. rewrite Hg. by intros [= <-].
Qed.

(** An edit that leaves the tree open makes the recomputation, and with it
    [derive], raise. *)
Example derive_ill_formed :
  let self := {| alleles := [Fn add; Name "x"; Const 3]; head := 1;
                 coding := 2; memo := None |} in
  (derive {| genes := [self]; dicts := [] |} 0 [(1, [Fn add])]).1
  = Raise IndexError.
Proof. reflexivity. Qed.

End Derive.

(** ** The population *)

Section PopulationFacts.
Import population.
Implicit Types (p : Population) (pop next : list slot) (gen : generator).

Lemma izip_take_length gen : ∀ n k,
  (∀ j, k ≤ j < k + n → is_Some (gen j)) →
  length (izip_take n gen k) = n.
Proof.
  induction n as [|n IH]; intros k Hgen; [done|]. cbn [izip_take].
  destruct (Hgen k) as [c ->]; [lia|]. cbn. f_equal. apply IH.
  intros j Hj. apply Hgen. lia.
Qed.

Lemma izip_take_barren gen n : gen 0 = None → izip_take n gen 0 = [].
Proof. intros Hgen. destruct n; cbn; [done|by rewrite Hgen]. Qed.

(** Construction from a generator that yields at least [size] chromosomes,
    [size] being positive, gives a population in its invariant. *)
Lemma init_productive cls (size head genes : Z) linker :
  (1 ≤ size)%Z →
  (∀ j, j < Z.to_nat size → is_Some (generate cls head genes linker j)) →
  ∃ p, __init__ cls size head genes linker = Ok p ∧
       population.size p = size ∧ age p = 1%Z ∧
       length (population p) = Z.to_nat size ∧ pop_inv p.
Proof.
  intros Hsize Hgen. unfold __init__.
  set (l := izip_take (Z.to_nat size) (generate cls head genes linker) 0).
  assert (Hlen : length l = Z.to_nat size).
  { apply izip_take_length. intros j Hj. apply Hgen. lia. }
  destruct l as [|c l'] eqn:Hl; [cbn in Hlen; lia|].
  cbn [fmap list_fmap lookup list_lookup].
  eexists. split; [reflexivity|]. cbn.
  split; [done|]. split; [done|]. split; [by rewrite length_fmap|].
  split; [done|]. cbn. split; [by rewrite length_fmap|].
  split; [by rewrite length_replicate|].
  constructor; [by eexists|]. apply Forall_fmap, Forall_true. by eexists.
Qed.

(** C9: construction with size 0, or from a factory that yields nothing,
    raises the configuration error and builds no population; with size 10
    and a factory that yields at least ten chromosomes it returns a
    population of exactly 10 chromosomes whose age is 1. *)
Theorem init_empty_or_ten cls cls' (head genes : Z) linker :
  (∀ j, j < 10 → is_Some (generate cls' head genes linker j)) →
  __init__ cls 0 head genes linker =
    Raise (ValueError "Empty populations are meaningless!") ∧
  (∀ size, generate cls head genes linker 0 = None →
           __init__ cls size head genes linker =
             Raise (ValueError "Empty populations are meaningless!")) ∧
  ∃ p, __init__ cls' 10 head genes linker = Ok p ∧
       length (population p) = 10 ∧
       Forall is_Some (population p) ∧
       age p = 1%Z.
Proof.
  intros Hgen. split; [done|]. split.
  - intros size Hnone. unfold __init__. by rewrite izip_take_barren.
  - destruct (init_productive cls' 10 head genes linker) as (p & Hp & _ & Ha & Hl & Hi);
      [lia|done|].
    exists p. split; [done|]. split; [done|]. split; [|done]. apply Hi.
Qed.

Lemma init_empty_or_ten_witness :
  __init__ barren_class 0 6 1 identity_linker =
    Raise (ValueError "Empty populations are meaningless!") ∧
  (∀ size, generate barren_class 6 1 identity_linker 0 = None →
           __init__ barren_class size 6 1 identity_linker =
             Raise (ValueError "Empty populations are meaningless!")) ∧
  ∃ p, __init__ endless_class 10 6 1 identity_linker = Ok p ∧
       length (population p) = 10 ∧
       Forall is_Some (population p) ∧
       age p = 1%Z.
Proof.
  apply (init_empty_or_ten barren_class endless_class 6 1 identity_linker).
  intros j _. by eexists.
Defined.

(** The scan of [max] returns an entry of greatest fitness. *)
Lemma max_scan_spec rest : ∀ c,
  Forall is_Some rest →
  ∃ b, max_scan (Some c) (fitness c) rest = Ok (Some b) ∧
       (b = c ∨ Some b ∈ rest) ∧
       (fitness c ≤ fitness b)%Z ∧
       ∀ x, Some x ∈ rest → (fitness x ≤ fitness b)%Z.
Proof.
  induction rest as [|y rest IH]; intros c Hall.
  - exists c. split; [done|]. split; [by left|]. split; [lia|].
    intros x Hx. by apply elem_of_nil in Hx.
  - apply Forall_cons in Hall as [[d ->] Hall]. cbn [max_scan fitness_of bind].
    destruct (fitness c <? fitness d)%Z eqn:Hlt.
    + apply Z.ltb_lt in Hlt.
      destruct (IH d Hall) as (b & Hb & Hin & Hge & Hmax).
      exists b. split; [done|]. split; [|split; [lia|]].
      * right. destruct Hin as [->|Hin];
          [apply list_elem_of_here|by apply list_elem_of_further].
      * intros x Hx. apply elem_of_cons in Hx as [[= ->]|Hx]; [done|].
        by apply Hmax.
    + apply Z.ltb_ge in Hlt.
      destruct (IH c Hall) as (b & Hb & Hin & Hge & Hmax).
      exists b. split; [done|]. split; [|split; [done|]].
      * destruct Hin as [->|Hin]; [by left|].
        right. by apply list_elem_of_further.
      * intros x Hx. apply elem_of_cons in Hx as [[= ->]|Hx]; [lia|].
        by apply Hmax.
Qed.

Lemma best_spec p :
  pop_inv p →
  ∃ b, best p = Ok (Some b) ∧ Some b ∈ population p ∧
       ∀ x, Some x ∈ population p → (fitness x ≤ fitness b)%Z.
Proof.
  intros (Hsize & Hlen & _ & Hall). unfold best.
  destruct (population p) as [|x rest]; [cbn in Hlen; lia|].
  apply Forall_cons in Hall as [[c ->] Hall]. cbn [fitness_of bind].
  destruct (max_scan_spec rest c Hall) as (b & Hb & Hin & Hge & Hmax).
  exists b. split; [done|]. split.
  - destruct Hin as [->|Hin];
      [apply list_elem_of_here|by apply list_elem_of_further].
  - intros x Hx. apply elem_of_cons in Hx as [[= ->]|Hx]; [done|].
    by apply Hmax.
Qed.

Lemma choice_spec pop r :
  pop ≠ [] → ∃ x, choice r pop = Ok x ∧ x ∈ pop.
Proof.
  intros Hne. unfold choice, getitem.
  destruct pop as [|y pop']; [done|].
  destruct (lookup_lt_is_Some_2 (y :: pop') (r mod length (y :: pop')))
    as [x Hx].
  { apply Nat.mod_upper_bound. done. }
  rewrite Hx. exists x. split; [done|]. by eapply list_elem_of_lookup_2.
Qed.

(** The filling loop writes a member of the current generation at each
    position of its range and nothing elsewhere. *)
Lemma fill_spec pop rng : ∀ range next,
  pop ≠ [] →
  Forall (λ i, i < length next) range →
  ∃ next',
    fill pop rng range next = Ok next' ∧
    length next' = length next ∧
    (∀ i, i ∉ range → next' !! i = next !! i) ∧
    (∀ i, i ∈ range → ∃ x, next' !! i = Some x ∧ x ∈ pop).
Proof.
  induction range as [|i range IH]; intros next Hne Hrange.
  - exists next. split; [done|]. split; [done|]. split; [done|].
    intros i Hi. by apply elem_of_nil in Hi.
  - apply Forall_cons in Hrange as [Hi Hrange]. cbn [fill].
    destruct (choice_spec pop (rng i) Hne) as (x & -> & Hx). cbn [bind].
    unfold setitem. rewrite decide_True by done. cbn [bind].
    destruct (IH (<[i:=x]> next) Hne) as (next' & Hfill & Hlen & Hout & Hin).
    { eapply Forall_impl; [exact Hrange|]. intros j Hj.
      by rewrite length_insert. }
    exists next'. split; [done|]. split; [by rewrite Hlen, length_insert|].
    split.
    + intros j Hj. apply not_elem_of_cons in Hj as [Hji Hj].
      rewrite Hout by done. by apply list_lookup_insert_ne.
    + intros j Hj. destruct (decide (j ∈ range)) as [Hjr|Hjr]; [by apply Hin|].
      apply elem_of_cons in Hj as [->|Hj]; [|done].
      rewrite Hout by done. exists x. split; [|done].
      by apply list_lookup_insert_eq.
Qed.

(** One generation step of a population in its invariant. *)
Lemma cycle_spec p rng :
  pop_inv p →
  ∃ p' b,
    cycle p rng = Ok p' ∧
    age p' = (age p + 1)%Z ∧
    size p' = size p ∧
    length (population p') = length (population p) ∧
    best p = Ok (Some b) ∧
    Some b ∈ population p ∧
    (∀ x, Some x ∈ population p → (fitness x ≤ fitness b)%Z) ∧
    population p' !! 0 = Some (Some b) ∧
    (∀ x, x ∈ population p' → x ∈ population p) ∧
    _next_pop p' = population p ∧
    pop_inv p'.
Proof.
  intros Hinv. destruct (best_spec p Hinv) as (b & Hb & Hbin & Hmax).
  destruct Hinv as (Hsize & Hlen & Hnext & Hall).
  assert (Hne : population p ≠ []) by (intros Hnil; rewrite Hnil in Hlen; cbn in Hlen; lia).
  destruct (fill_spec (population p) rng (seq 1 (Z.to_nat (size p) - 1))
              (<[0:=Some b]> (_next_pop p)) Hne)
    as (next' & Hfill & Hlen' & Hout & Hin).
  { apply Forall_forall. intros i Hi. apply elem_of_seq in Hi.
    rewrite length_insert. lia. }
  rewrite length_insert in Hlen'.
  assert (Hcycle : cycle p rng =
            Ok {| size := size p; head := head p; genes := genes p;
                  linker := linker p; age := age p + 1;
                  population := next'; _next_pop := population p;
                  header := header p |}).
  { unfold cycle. rewrite Hb. cbn [bind]. unfold setitem.
    rewrite decide_True by lia. cbn [bind]. by rewrite Hfill. }
  assert (H0 : next' !! 0 = Some (Some b)).
  { rewrite Hout.
    - apply list_lookup_insert_eq. lia.
    - intros Hi. apply elem_of_seq in Hi. lia. }
  assert (Hmem : ∀ x, x ∈ next' → x ∈ population p).
  { intros x Hx. apply list_elem_of_lookup in Hx as [i Hi].
    destruct i as [|i]; [congruence|].
    pose proof (lookup_lt_Some _ _ _ Hi) as Hlt.
    destruct (Hin (S i)) as (y & Hy & Hyin); [apply elem_of_seq; lia|].
    congruence. }
  eexists _, b. split; [exact Hcycle|]. cbn.
  do 9 (split; [first [done|lia]|]).
  unfold pop_inv. cbn. split; [done|]. split; [lia|]. split; [done|].
  apply Forall_forall. intros x Hx.
  by apply (proj1 (Forall_forall _ _) Hall), Hmem.
Qed.

(** Within the invariant (both buffers of [size] places, which
    construction establishes only when the factory yields at least [size]
    chromosomes): whatever the random draws, one [cycle] adds exactly 1 to
    the age, keeps the size and the number of chromosomes, and puts the
    chromosome of greatest fitness of the old generation, as it is, in slot
    0 of the new one; every member of the new generation is a member of the
    old one, the old generation becomes the scratch buffer, and the
    invariant holds again. *)
Theorem cycle_keeps_best p rng :
  pop_inv p →
  ∃ p' b,
    cycle p rng = Ok p' ∧
    age p' = (age p + 1)%Z ∧
    size p' = size p ∧
    length (population p') = length (population p) ∧
    best p = Ok (Some b) ∧
    Some b ∈ population p ∧
    (∀ x, Some x ∈ population p → (fitness x ≤ fitness b)%Z) ∧
    population p' !! 0 = Some (Some b) ∧
    (∀ x, x ∈ population p' → x ∈ population p) ∧
    _next_pop p' = population p ∧
    pop_inv p'.
Proof. apply cycle_spec. Qed.

Lemma cycle_keeps_best_witness :
  ∃ p' b,
    cycle sample_population (λ i, 7 * i) = Ok p' ∧
    age p' = 6%Z ∧
    size p' = 3%Z ∧
    length (population p') = 3 ∧
    best sample_population = Ok (Some b) ∧
    Some b ∈ population sample_population ∧
    (∀ x, Some x ∈ population sample_population →
          (fitness x ≤ fitness b)%Z) ∧
    population p' !! 0 = Some (Some b) ∧
    (∀ x, x ∈ population p' → x ∈ population sample_population) ∧
    _next_pop p' = population sample_population ∧
    pop_inv p'.
Proof.
  apply (cycle_keeps_best sample_population (λ i, 7 * i)).
  split; [cbn; lia|]. split; [reflexivity|]. split; [reflexivity|].
  repeat constructor; by eexists.
Defined.

(** From construction to the second generation: age 2, still [size]
    chromosomes, the best of the first generation in slot 0. *)
Lemma first_cycle cls (size head genes : Z) linker rng :
  (1 ≤ size)%Z →
  (∀ j, j < Z.to_nat size → is_Some (generate cls head genes linker j)) →
  ∃ p p' b,
    __init__ cls size head genes linker = Ok p ∧
    cycle p rng = Ok p' ∧
    age p' = 2%Z ∧
    length (population p') = Z.to_nat size ∧
    best p = Ok (Some b) ∧
    population p' !! 0 = Some (Some b).
Proof.
  intros Hsize Hgen.
  destruct (init_productive cls size head genes linker Hsize Hgen)
    as (p & Hp & _ & Hage & Hlen & Hinv).
  destruct (cycle_spec p rng Hinv)
    as (p' & b & Hc & Hage' & _ & Hlen' & Hb & _ & _ & H0 & _).
  exists p, p', b. rewrite Hage in Hage'. rewrite Hlen in Hlen'. done.
Qed.

(** Generations one after the other; [rngs k] makes the draws of the k-th
    cycle. *)
Lemma cycles_spec (rngs : nat → nat → nat) (n : nat) : ∀ p,
  pop_inv p →
  ∃ p', foldl (λ r k, let* q := r in cycle q (rngs k)) (Ok p) (seq 0 n)
        = Ok p' ∧
        age p' = (age p + Z.of_nat n)%Z ∧
        length (population p') = length (population p) ∧
        pop_inv p'.
Proof.
  induction n as [|n IH]; intros p Hinv.
  - exists p. cbn. split; [done|]. split; [lia|done].
  - destruct (IH p Hinv) as (q & Hq & Hage & Hlen & Hinvq).
    rewrite seq_S, foldl_app, Hq. cbn [foldl bind].
    destruct (cycle_spec q (rngs (0 + n)) Hinvq)
      as (p' & b & -> & Hage' & _ & Hlen' & _ & _ & _ & _ & _ & _ & Hinv').
    exists p'. split; [done|]. split; [lia|]. split; [congruence|done].
Qed.

(** C8 does not hold of every population the code builds.  Constructed
    with size 3 from a factory that yields two chromosomes, the population
    holds 2 chromosomes beside a scratch buffer of 3 places (only the empty
    case is rejected); its first cycle then changes the number of
    chromosomes from 2 to 3, and its second cycle writes past the end of
    the swapped-in buffer and raises [IndexError] instead of advancing the
    age. *)
Example underfilled_population :
  let cls := {| generate := fun _ _ _ k =>
                  if decide (k < 2)
                  then Some {| chrom_id := k; chrom_len := 13;
                               fitness := Z.of_nat k; chrom_str := "c" |}
                  else None |} in
  ∃ p p',
    __init__ cls 3 6 1 identity_linker = Ok p ∧
    size p = 3%Z ∧ age p = 1%Z ∧
    length (population p) = 2 ∧
    length (_next_pop p) = 3 ∧
    cycle p (λ _, 0) = Ok p' ∧
    size p' = 3%Z ∧ age p' = 2%Z ∧
    length (population p') = 3 ∧
    cycle p' (λ _, 0) = Raise IndexError.
Proof. cbn. eexists _, _. repeat split. Qed.

(** On equal fitness the first chromosome found is the best one. *)
Example best_first_maximum :
  chrom_id <$> (default None (match best sample_population with
                              | Ok b => Some b
                              | _ => None
                              end)) = Some 1.
Proof. reflexivity. Qed.

End PopulationFacts.

(** * Further properties of karva.py *)

Section CodingMore.
Import karva.
Implicit Types (alleles l : list allele).

(** [_find_coding], and with it the construction of a gene, fails exactly
    on the allele lists that are not well-formed, the empty one among them,
    and then with [IndexError]. *)
Theorem find_coding_fails_iff alleles :
  (_find_coding alleles = Raise IndexError ↔ ¬ well_formed alleles) ∧
  (∀ e, _find_coding alleles = Raise e → e = IndexError) ∧
  (∀ h hd, __init__ h alleles hd = Raise IndexError ↔ ¬ well_formed alleles) ∧
  _find_coding [] = Raise IndexError.
Proof.
  split; [|split; [|split; [|reflexivity]]].
  3: { intros h hd. unfold __init__.
       destruct (find_coding_cases alleles) as [(c & -> & Hcl & _)|[-> Hn]];
         cbn [bind]; [|done].
       split; [done|]. intros Hn. destruct Hn. by exists c. }
  - destruct (find_coding_cases alleles) as [(c & Hc & Hcl & _)|[Hr Hn]].
    + split; [congruence|]. intros Hn. destruct Hn. by exists c.
    + done.
  - intros e He.
    destruct (find_coding_cases alleles) as [(c & Hc & _)|[Hr _]]; congruence.
Qed.

(** Once the owed arguments are at most the alleles read, some earlier
    prefix is closed. *)
Lemma closed_before alleles : ∀ k,
  k ≤ length alleles → 1 + required (take k alleles) ≤ k →
  ∃ c, c < k ∧ closes alleles c.
Proof.
  induction k as [|k IH]; intros Hlen Hk; [lia|].
  destruct (decide (required (take (S k) alleles) = k)) as [Heq|Hne].
  - exists k. split; [lia|]. split; [lia|done].
  - pose proof (required_take_mono alleles k (S k)).
    destruct IH as (c & Hc & Hcl); [lia|lia|]. exists c. split; [lia|done].
Qed.

Lemma required_head_tail l : ∀ h n,
  (∀ i f, l !! i = Some (Fn f) → i < h ∧ co_argcount f ≤ n) →
  required l ≤ h * n.
Proof.
  induction l as [|a l IH]; intros h n Hfn; [unfold required; cbn; lia|].
  unfold required in *. cbn [sum_list_with].
  destruct h as [|h].
  - assert (arity a = 0) as ->.
    { destruct a as [f| |]; [|done..]. destruct (Hfn 0 f eq_refl). lia. }
    apply (IH 0 n). intros i f Hi. destruct (Hfn (S i) f Hi). lia.
  - assert (arity a ≤ n).
    { destruct a as [f| |]; cbn; [|lia..]. by destruct (Hfn 0 f eq_refl). }
    assert (sum_list_with arity l ≤ h * n).
    { apply IH. intros i f Hi. destruct (Hfn (S i) f Hi). split; [lia|done]. }
    lia.
Qed.

(** A gene that obeys the head/tail rule is well-formed: construction
    succeeds, and the coding region ends within the first [h * n + 1]
    alleles. *)
Theorem head_tail_rule_well_formed alleles (h n : nat) heap hd :
  head_tail_rule alleles h n →
  ∃ (c : nat) heap',
    __init__ heap alleles hd = Ok (length (genes heap), heap') ∧
    _find_coding alleles = Ok (Z.of_nat c) ∧
    c ≤ h * n ∧ c < length alleles.
Proof.
  intros [Hfn Hlen].
  assert (Hreq : required (take (h * n + 1) alleles) ≤ h * n).
  { apply required_head_tail. intros i f Hi.
    apply lookup_take_Some in Hi as [Hi _]. by apply Hfn. }
  destruct (closed_before alleles (h * n + 1)) as (c0 & Hc0 & Hcl); [lia|lia|].
  destruct (find_coding_cases alleles) as [(c & Hc & [Hclt _] & Hmin)|[_ Hn]];
    [|destruct Hn; by exists c0].
  specialize (Hmin c0 Hcl).
  exists c. eexists. unfold __init__. rewrite Hc. cbn [bind].
  split; [reflexivity|]. split; [done|]. split; lia.
Qed.

Lemma head_tail_rule_well_formed_witness :
  ∃ (c : nat) heap',
    __init__ empty_heap [Fn add; Name "x"; Const 3] 1
      = Ok (length (genes empty_heap), heap') ∧
    _find_coding [Fn add; Name "x"; Const 3] = Ok (Z.of_nat c) ∧
    c ≤ 1 * 2 ∧ c < length [Fn add; Name "x"; Const 3].
Proof.
  apply (head_tail_rule_well_formed [Fn add; Name "x"; Const 3] 1 2).
  split; [|cbn; lia].
  intros [|[|[|i]]] f Hi; cbn in Hi; try discriminate.
  injection Hi as <-. cbn. lia.
Defined.

End CodingMore.

(** ** What an evaluation computes *)

Section Decoding.
Import karva.
Implicit Types (alleles : list allele) (obj : context) (ev : list value).

(** Inside the coding region the arguments of an allele lie after it, and
    those of the last allele end where the region ends. *)
Lemma find_coding_open alleles (c : nat) :
  _find_coding alleles = Ok (Z.of_nat c) →
  closes alleles c ∧ ∀ i, i ≤ c → i < child_start alleles i.
Proof.
  unfold _find_coding. intros Hc.
  destruct (while_args_spec alleles (S (length alleles)) 0 1
              (level_inv_start alleles)) as [(k & Hk & Hinv)|[Hr _]]; [lia|..].
  - rewrite Hk in Hc. cbn in Hc. injection Hc as Hc.
    assert (k = S c) as -> by (destruct Hinv; lia).
    destruct Hinv as (Hle & Hsum & Hopen). split; [split; lia|].
    intros i Hi. unfold child_start. destruct i as [|i]; [lia|].
    apply Hopen. lia.
  - by rewrite Hr in Hc.
Qed.

Lemma child_start_S alleles i a :
  alleles !! i = Some a →
  child_start alleles (S i) = child_start alleles i + arity a.
Proof. intros Ha. unfold child_start. rewrite (required_take_S _ _ _ Ha). lia. Qed.

Lemma child_start_mono alleles i j :
  i ≤ j → child_start alleles i ≤ child_start alleles j.
Proof.
  intros Hij. unfold child_start.
  pose proof (required_take_mono alleles i j Hij). lia.
Qed.

(** What step 1 leaves in each slot. *)
Lemma comprehension_lookup obj alleles vs :
  (comprehension obj alleles).1 = Ok vs →
  ∀ i a, alleles !! i = Some a →
    match a with
    | Fn _ => vs !! i = Some VNone
    | Name s => vs !! i = attrs obj !! s ∧ is_Some (attrs obj !! s)
    | Const z => vs !! i = Some (VNum z)
    end.
Proof.
  revert vs. induction alleles as [|a0 rest IH]; intros vs Hvs i a Hi; [done|].
  cbn [comprehension] in Hvs.
  destruct (tbind_Ok _ _ _ Hvs) as (v & Hv & Hvs').
  destruct (tbind_Ok _ _ _ Hvs') as (vs' & Hrest & Heq).
  injection Heq as <-. destruct i as [|i].
  - injection Hi as ->. destruct a as [f|s|z]; cbn [_value] in Hv.
    + by injection Hv as <-.
    + unfold getattr in Hv. rewrite tbind_emit in Hv. cbn [lift fst] in Hv.
      destruct (attrs obj !! s) as [w|]; [|done]. injection Hv as <-.
      split; [done|by eexists].
    + by injection Hv as <-.
  - cbn. by apply (IH vs' Hrest i a).
Qed.

(** The backward walk fills the slot of every function of the coding
    region with the function's value on its arguments' slots. *)
Lemma walk_decodes alleles obj (c : nat) :
  closes alleles c →
  (∀ i, i ≤ c → i < child_start alleles i) →
  ∀ n ev index,
    n ≤ S c →
    length ev = length alleles →
    index = Z.of_nat (child_start alleles n) →
    (∀ i a, i ≤ c → alleles !! i = Some a → callable a = false →
            match a with
            | Name s => ev !! i = attrs obj !! s
            | Const z => ev !! i = Some (VNum z)
            | Fn _ => True
            end) →
    (∀ i f, n ≤ i ≤ c → alleles !! i = Some (Fn f) →
            ∃ r, ev !! i = Some r ∧
                 code f (take (co_argcount f)
                           (drop (child_start alleles i) ev)) = Some r) →
    ∀ st, (walk alleles n ev index).1 = Ok st →
          decoded alleles obj c st.1 ∧ length st.1 = length alleles.
Proof.
  intros [Hc Hreq] Hopen.
  assert (Hend : child_start alleles (S c) = S c) by (unfold child_start; lia).
  induction n as [|i IH]; intros ev index Hn Hlen Hidx Hterm Hfun st Hst.
  - injection Hst as <-. cbn [fst]. split; [|done].
    intros i a Hi Ha. destruct a as [f|s|z].
    + apply Hfun; [lia|done].
    + by apply (Hterm i (Name s)).
    + by apply (Hterm i (Const z)).
  - destruct (lookup_lt_is_Some_2 alleles i) as [a Ha]; [lia|].
    pose proof (child_start_S _ _ _ Ha) as HS.
    rewrite (walk_step _ _ _ _ _ Ha) in Hst.
    assert (Hrest : ∀ j f, i ≤ j ≤ c → alleles !! j = Some (Fn f) →
                           callable a = false → S i ≤ j ≤ c).
    { intros j f Hj Hjf Hcall. destruct (decide (j = i)) as [->|]; [|lia].
      rewrite Ha in Hjf. injection Hjf as ->. done. }
    destruct a as [f|s|z]; cbn [arity] in HS.
    2,3: apply (IH ev index); [lia|done|lia|done| |done];
         intros j g Hj Hjg; apply Hfun; [by eapply Hrest|done].
    cbv zeta in Hst. rewrite tbind_emit in Hst. cbn [fst] in Hst.
    apply tbind_Ok in Hst as (r & Hr & Hst). cbn [lift fst] in Hr.
    pose proof (Hopen i ltac:(lia)) as Hi.
    pose proof (child_start_mono alleles (S i) (S c) ltac:(lia)) as Hmono.
    set (lo := child_start alleles i) in *.
    assert (Hslice : getslice ev (index - Z.of_nat (co_argcount f)) index
                     = take (co_argcount f) (drop lo ev)).
    { unfold getslice.
      replace (index - Z.of_nat (co_argcount f))%Z with (Z.of_nat lo) by lia.
      rewrite Hidx, !slice_bound_id by lia. f_equal. lia. }
    rewrite Hslice in Hr. unfold apply in Hr.
    destruct (decide _) as [_|]; [|done].
    destruct (code f (take (co_argcount f) (drop lo ev))) as [r'|] eqn:Hcode;
      [|done].
    injection Hr as <-. unfold setitem in Hst.
    rewrite decide_True in Hst by lia. rewrite tbind_lift_Ok in Hst.
    apply (IH (<[i:=r']> ev) (index - Z.of_nat (co_argcount f))%Z);
      [lia|by rewrite length_insert|lia| | |done].
    + intros j a Hj Hja Hcall.
      assert (j ≠ i) by (intros ->; rewrite Ha in Hja; by injection Hja as <-).
      rewrite list_lookup_insert_ne by done. by apply Hterm.
    + intros j g Hj Hjg.
      pose proof (child_start_mono alleles i j ltac:(lia)) as Hij.
      rewrite drop_insert_lt by (fold lo in Hij; lia).
      destruct (decide (j = i)) as [->|Hne].
      * rewrite Ha in Hjg. injection Hjg as <-.
        exists r'. split; [|done]. apply list_lookup_insert_eq. lia.
      * rewrite list_lookup_insert_ne by done. apply Hfun; [lia|done].
Qed.

Lemma call_decodes_breadth_first_aux alleles (c : nat) hd m obj v :
  _find_coding alleles = Ok (Z.of_nat c) →
  (call_body {| alleles := alleles; head := hd; coding := Z.of_nat c;
                memo := m |} obj).1 = Ok v →
  ∃ ev, length ev = length alleles ∧
        decoded alleles obj c ev ∧
        ev !! 0 = Some v.
Proof.
  intros Hfc Hv. destruct (find_coding_open _ _ Hfc) as [Hcl Hopen].
  unfold call_body in Hv. cbn [karva.alleles coding] in Hv.
  apply tbind_Ok in Hv as (ev0 & Hev0 & Hv).
  apply tbind_Ok in Hv as (st & Hst & Hv).
  replace (Z.to_nat (Z.of_nat c + 1)) with (S c) in Hst by lia.
  pose proof (comprehension_length _ _ _ Hev0) as Hlen.
  pose proof (comprehension_lookup _ _ _ Hev0) as Hlook.
  destruct (walk_decodes alleles obj c Hcl Hopen (S c) ev0 (Z.of_nat c + 1))
    with (st := st) as [Hdec Hlen']; [lia|done| | | |done|].
  - destruct Hcl as [_ Hreq]. unfold child_start. lia.
  - intros i a _ Ha _. specialize (Hlook i a Ha).
    destruct a; [done|by destruct Hlook|done].
  - intros i f Hi. lia.
  - exists st.1. split; [done|]. split; [done|]. cbn [lift fst] in Hv.
    unfold getitem in Hv. by destruct (st.1 !! 0) as [w|]; [injection Hv as ->|].
Qed.

(** Karva decoding: when an evaluation returns, the results array holds at
    every position of the coding region the value of the expression rooted
    there, the arguments of the allele at [i] being the alleles from
    [child_start i] on (breadth-first order), and the value returned is
    the one at the root. *)
Theorem call_decodes_breadth_first alleles (c : nat) hd m obj v :
  _find_coding alleles = Ok (Z.of_nat c) →
  (call_body {| alleles := alleles; head := hd; coding := Z.of_nat c;
                memo := m |} obj).1 = Ok v →
  ∃ ev, length ev = length alleles ∧
        decoded alleles obj c ev ∧
        ev !! 0 = Some v.
Proof. apply call_decodes_breadth_first_aux. Qed.

Lemma call_decodes_breadth_first_witness :
  ∃ ev, length ev = 3 ∧
        decoded [Fn add; Name "x"; Const 3] ctx5 2 ev ∧
        ev !! 0 = Some (VNum 8).
Proof.
  apply (call_decodes_breadth_first [Fn add; Name "x"; Const 3] 2 1 None ctx5);
    reflexivity.
Defined.

(** The decoded values of a coding region are determined by its alleles
    and by the attributes it names. *)
Lemma decoded_unique alleles1 alleles2 obj1 obj2 (c : nat) ev1 ev2 :
  closes alleles1 c →
  (∀ i, i ≤ c → i < child_start alleles1 i) →
  take (S c) alleles2 = take (S c) alleles1 →
  (∀ s, Name s ∈ take (S c) alleles1 → attrs obj1 !! s = attrs obj2 !! s) →
  decoded alleles1 obj1 c ev1 →
  decoded alleles2 obj2 c ev2 →
  ∀ i, i ≤ c → ev1 !! i = ev2 !! i.
Proof.
  intros [Hc Hreq] Hopen Hpre Hattrs Hd1 Hd2.
  assert (Hcs : ∀ i, i ≤ S c → child_start alleles2 i = child_start alleles1 i).
  { intros i Hi. unfold child_start. f_equal. f_equal.
    replace i with (i `min` S c) by lia. by rewrite <- !take_take, Hpre. }
  assert (Hend : child_start alleles1 (S c) = S c) by (unfold child_start; lia).
  assert (Hlook : ∀ i, i ≤ c → alleles2 !! i = alleles1 !! i).
  { intros i Hi. rewrite <- (lookup_take_lt alleles2 (S c)) by lia.
    rewrite Hpre. apply lookup_take_lt. lia. }
  assert (Hall : ∀ d i, i ≤ c → c - i ≤ d → ev1 !! i = ev2 !! i);
    [|intros i Hi; apply (Hall c); lia].
  induction d as [|d IH]; intros i Hi Hd.
  all: destruct (lookup_lt_is_Some_2 alleles1 i) as [a Ha]; [lia|].
  all: pose proof (Hd1 i a Hi Ha) as H1.
  all: pose proof (Hd2 i a Hi ltac:(by rewrite Hlook)) as H2.
  all: pose proof (child_start_S _ _ _ Ha) as HS.
  all: pose proof (child_start_mono alleles1 (S i) (S c) ltac:(lia)) as Hmono.
  all: pose proof (Hopen i Hi) as Hlt.
  all: destruct a as [f|s|z]; cbn [arity] in HS.
  all: try (rewrite H1, H2; done).
  all: try (rewrite H1, H2; apply Hattrs;
            apply (list_elem_of_lookup_2 _ i); rewrite lookup_take_lt by lia;
            done).
  all: destruct H1 as (r1 & -> & Hr1), H2 as (r2 & -> & Hr2).
  all: rewrite Hcs in Hr2 by lia.
  all: assert (take (co_argcount f) (drop (child_start alleles1 i) ev1)
               = take (co_argcount f) (drop (child_start alleles1 i) ev2))
         as Heq; [|congruence].
  all: apply list_eq; intros j; rewrite !lookup_take.
  all: case_decide; [|done]; rewrite !lookup_drop.
  - lia.
  - apply IH; lia.
Qed.

(** The value of a gene depends on its coding region only: two genes that
    agree up to the coding index, on contexts that agree on the names of
    that region, return the same value whenever both evaluations return. *)
Theorem value_depends_on_coding_region
  alleles1 alleles2 (c : nat) hd1 hd2 m1 m2 obj1 obj2 v1 v2 :
  _find_coding alleles1 = Ok (Z.of_nat c) →
  take (S c) alleles2 = take (S c) alleles1 →
  (∀ s, Name s ∈ take (S c) alleles1 → attrs obj1 !! s = attrs obj2 !! s) →
  (call_body {| alleles := alleles1; head := hd1; coding := Z.of_nat c;
                memo := m1 |} obj1).1 = Ok v1 →
  (call_body {| alleles := alleles2; head := hd2; coding := Z.of_nat c;
                memo := m2 |} obj2).1 = Ok v2 →
  _find_coding alleles2 = Ok (Z.of_nat c) ∧ v1 = v2.
Proof.
  intros Hfc1 Hpre Hattrs Hv1 Hv2.
  pose proof (find_coding_prefix _ _ _ Hfc1 Hpre) as Hfc2.
  split; [done|].
  destruct (find_coding_open _ _ Hfc1) as [Hcl Hopen].
  destruct (call_decodes_breadth_first_aux _ _ _ _ _ _ Hfc1 Hv1)
    as (ev1 & _ & Hd1 & H01).
  destruct (call_decodes_breadth_first_aux _ _ _ _ _ _ Hfc2 Hv2)
    as (ev2 & _ & Hd2 & H02).
  pose proof (decoded_unique _ _ _ _ _ _ _ Hcl Hopen Hpre Hattrs Hd1 Hd2 0
                ltac:(lia)) as Heq.
  congruence.
Qed.

Lemma value_depends_on_coding_region_witness :
  _find_coding [Fn add; Name "x"; Const 3; Name "y"] = Ok (Z.of_nat 2) ∧
  VNum 8 = VNum 8.
Proof.
  apply (value_depends_on_coding_region
           [Fn add; Name "x"; Const 3] [Fn add; Name "x"; Const 3; Name "y"]
           2 1 1 None None ctx5 ctx_xy (VNum 8) (VNum 8)); try reflexivity.
  intros s Hs. cbn in Hs.
  apply elem_of_cons in Hs as [[=]|Hs].
  apply elem_of_cons in Hs as [[= ->]|Hs]; [reflexivity|].
  apply elem_of_cons in Hs as [[=]|Hs]. by apply elem_of_nil in Hs.
Defined.

End Decoding.

(** ** The container protocol and rendering *)

Section Container.
Import karva.
Implicit Types (self : KarvaGene) (l : list allele).

(** Indexing follows iteration order, a negative index counts from the
    end, and an index outside [-len..len-1] raises [IndexError]. *)
Theorem getitem_by_position self :
  (∀ (k : nat) a, __iter__ self !! k = Some a →
     __getitem__ self (Z.of_nat k) = Ok a ∧
     __getitem__ self (Z.of_nat k - Z.of_nat (__len__ self)) = Ok a) ∧
  (∀ i : Z, (i < - Z.of_nat (__len__ self) ∨ Z.of_nat (__len__ self) ≤ i)%Z →
     __getitem__ self i = Raise IndexError).
Proof.
  unfold __getitem__, __iter__, __len__, getitem_int. split.
  - intros k a Hk. pose proof (lookup_lt_Some _ _ _ Hk) as Hlt. split.
    + destruct (Z.ltb_spec (Z.of_nat k) 0); [lia|].
      destruct (Z.ltb_spec (Z.of_nat k) 0); [lia|].
      unfold getitem. by rewrite Nat2Z.id, Hk.
    + destruct (Z.ltb_spec (Z.of_nat k - Z.of_nat (length (alleles self))) 0);
        [|lia].
      replace (Z.of_nat k - Z.of_nat (length (alleles self))
               + Z.of_nat (length (alleles self)))%Z with (Z.of_nat k) by lia.
      destruct (Z.ltb_spec (Z.of_nat k) 0); [lia|].
      unfold getitem. by rewrite Nat2Z.id, Hk.
  - intros i Hi. destruct (Z.ltb_spec i 0).
    + destruct (Z.ltb_spec (i + Z.of_nat (length (alleles self))) 0); [done|].
      lia.
    + destruct (Z.ltb_spec i 0); [lia|]. unfold getitem.
      rewrite lookup_ge_None_2; [done|lia].
Qed.

Lemma getslice_nat l (i j : nat) :
  getslice l (Z.of_nat i) (Z.of_nat j)
  = take (j `min` length l - i `min` length l) (drop (i `min` length l) l).
Proof.
  unfold getslice, slice_bound.
  destruct (Z.ltb_spec (Z.of_nat i) 0); [lia|].
  destruct (Z.ltb_spec (Z.of_nat j) 0); [lia|].
  f_equal; [|f_equal]; lia.
Qed.

(** Slices with non-negative bounds: the slice from [i] to [j] holds the
    alleles at positions [i..j-1] that exist, adjacent slices concatenate
    to the slice over both ranges, and the slice from 0 to the length is
    the whole allele list. *)
Theorem getslice_by_position self (i j k : nat) :
  i ≤ j → j ≤ k →
  (∀ n, __getslice__ self (Z.of_nat i) (Z.of_nat j) !! n
        = if decide (i + n < j) then __iter__ self !! (i + n) else None) ∧
  __getslice__ self (Z.of_nat i) (Z.of_nat j) ++
    __getslice__ self (Z.of_nat j) (Z.of_nat k)
  = __getslice__ self (Z.of_nat i) (Z.of_nat k) ∧
  __getslice__ self 0 (Z.of_nat (__len__ self)) = __iter__ self.
Proof.
  intros Hij Hjk. unfold __getslice__, __iter__, __len__.
  set (l := alleles self). split; [|split].
  - intros n. rewrite getslice_nat, lookup_take, lookup_drop.
    destruct (decide (i + n < j)) as [Hn|Hn].
    + destruct (decide (i + n < length l)) as [Hl|Hl].
      * rewrite decide_True by lia. f_equal. lia.
      * rewrite (lookup_ge_None_2 l (i + n)) by lia.
        case_decide; [|done]. apply lookup_ge_None_2. lia.
    + case_decide; [|done]. apply lookup_ge_None_2. lia.
  - rewrite !getslice_nat.
    replace (k `min` length l - i `min` length l)
      with ((j `min` length l - i `min` length l)
            + (k `min` length l - j `min` length l)) by lia.
    rewrite <- take_take_drop, drop_drop. do 3 f_equal. lia.
  - change 0%Z with (Z.of_nat 0). rewrite getslice_nat. cbn.
    rewrite Nat.min_id, Nat.sub_0_r. apply take_ge. lia.
Qed.

Lemma getslice_by_position_witness :
  let self := {| alleles := [Fn add; Name "x"; Const 3]; head := 1;
                 coding := 2; memo := None |} in
  (∀ n, __getslice__ self (Z.of_nat 1) (Z.of_nat 2) !! n
        = if decide (1 + n < 2) then __iter__ self !! (1 + n) else None) ∧
  __getslice__ self (Z.of_nat 1) (Z.of_nat 2) ++
    __getslice__ self (Z.of_nat 2) (Z.of_nat 5)
  = __getslice__ self (Z.of_nat 1) (Z.of_nat 5) ∧
  __getslice__ self 0 (Z.of_nat (__len__ self)) = __iter__ self.
Proof.
  intros self. apply (getslice_by_position self 1 2 5); lia.
Defined.

Lemma length_append (s t : string) :
  String.length (s +:+ t) = String.length s + String.length t.
Proof.
  induction s as [|ch s IH]; [done|].
  change (S (String.length (s +:+ t)) = S (String.length s + String.length t)).
  by rewrite IH.
Qed.

Lemma repr_foldl l : ∀ acc,
  foldl (λ s a,
           let name := display a in
           s +:+ (if decide (String.length name = 1) then name
                  else "{" +:+ name +:+ "}")) acc l
  = acc +:+ __repr__ {| alleles := l; head := 0; coding := 0; memo := None |}.
Proof.
  unfold __repr__. cbn [alleles].
  induction l as [|a l IH]; intros acc.
  - cbn. induction acc as [|ch acc IHacc]; [done|].
    change (String ch acc = String ch (acc +:+ EmptyString)). by rewrite <- IHacc.
  - cbn [foldl]. rewrite IH. rewrite (IH (EmptyString +:+ _)).
    by rewrite append_assoc.
Qed.

Lemma repr_only_alleles self :
  __repr__ self
  = __repr__ {| alleles := alleles self; head := 0; coding := 0;
                memo := None |}.
Proof. done. Qed.

(** Rendering is allele by allele: the rendering of a gene is the
    rendering of any front part followed by that of the rest, and it has
    [glyph_width a] characters for each allele [a], hence at least one
    character per allele and exactly one when every display name is a
    single character. *)
Theorem repr_allele_by_allele self l1 l2 :
  alleles self = l1 ++ l2 →
  __repr__ self
  = __repr__ {| alleles := l1; head := head self; coding := coding self;
                memo := memo self |} +:+
    __repr__ {| alleles := l2; head := head self; coding := coding self;
                memo := memo self |} ∧
  String.length (__repr__ self) = sum_list_with glyph_width (alleles self) ∧
  __len__ self ≤ String.length (__repr__ self) ∧
  (Forall (λ a, String.length (display a) = 1) (alleles self) →
   String.length (__repr__ self) = __len__ self).
Proof.
  intros Hsplit.
  assert (Happ : ∀ k1 k2 hd c m,
    __repr__ {| alleles := k1 ++ k2; head := hd; coding := c; memo := m |}
    = __repr__ {| alleles := k1; head := hd; coding := c; memo := m |} +:+
      __repr__ {| alleles := k2; head := hd; coding := c; memo := m |}).
  { intros k1 k2 hd c m. unfold __repr__ at 1. cbn [alleles].
    rewrite foldl_app. rewrite repr_foldl. done. }
  assert (Hlen : ∀ k, String.length
            (__repr__ {| alleles := k; head := 0; coding := 0; memo := None |})
            = sum_list_with glyph_width k).
  { induction k as [|a k IH]; [done|].
    rewrite (Happ [a] k), length_append, IH. cbn [sum_list_with]. f_equal.
    unfold __repr__, glyph_width. cbn.
    case_decide as Hn; [done|].
    rewrite !length_append. cbn. lia. }
  assert (Hge : ∀ k, length k ≤ sum_list_with glyph_width k).
  { induction k as [|a k IH]; [done|]. cbn.
    assert (1 ≤ glyph_width a) by (unfold glyph_width; case_decide; lia).
    lia. }
  assert (Hone : ∀ k, Forall (λ a, String.length (display a) = 1) k →
                      sum_list_with glyph_width k = length k).
  { induction 1 as [|a k Ha _ IH]; [done|]. cbn. rewrite IH.
    unfold glyph_width. by rewrite decide_True. }
  split; [|split; [|split]].
  - rewrite <- Happ, <- Hsplit. by destruct self.
  - by rewrite repr_only_alleles, Hlen.
  - rewrite repr_only_alleles, Hlen. apply Hge.
  - intros Hall. rewrite repr_only_alleles, Hlen. by apply Hone.
Qed.

Lemma repr_allele_by_allele_witness :
  let self := {| alleles := [Fn plus; Name "x"; Const 3]; head := 1;
                 coding := 2; memo := None |} in
  __repr__ self
  = __repr__ {| alleles := [Fn plus]; head := 1; coding := 2;
                memo := None |} +:+
    __repr__ {| alleles := [Name "x"; Const 3]; head := 1; coding := 2;
                memo := None |} ∧
  String.length (__repr__ self) = sum_list_with glyph_width (alleles self) ∧
  __len__ self ≤ String.length (__repr__ self) ∧
  (Forall (λ a, String.length (display a) = 1) (alleles self) →
   String.length (__repr__ self) = __len__ self).
Proof.
  intros self. apply (repr_allele_by_allele self [Fn plus] [Name "x"; Const 3]).
  reflexivity.
Defined.

End Container.

(** ** More on derivation *)

Section DeriveMore.
Import karva.
Implicit Types (h : heap) (g : nat) (self : KarvaGene)
  (ch : nat * list allele) (changes : list (nat * list allele))
  (st : option (list allele) * bool).

(** [derive] is copy-on-change: whatever it returns or raises, it touches
    no cache dictionary and no gene already in the store, the receiver
    included; at most one new gene is added. *)
Theorem derive_touches_nothing h g changes :
  dicts (derive h g changes).2 = dicts h ∧
  ∃ added, genes (derive h g changes).2 = genes h ++ added ∧
           length added ≤ 1.
Proof.
  unfold derive. destruct (genes h !! g) as [self|];
    [|split; [done|exists []; rewrite app_nil_r; split; [done|cbn; lia]]].
  destruct (truthy (derive_loop self changes).1);
    [|split; [done|exists []; rewrite app_nil_r; split; [done|cbn; lia]]].
  destruct (derive_loop self changes).2;
    [split; [done|eexists; split; [reflexivity|cbn; lia]]|].
  destruct (_find_coding _); (split; [done|]);
    eexists; (split; [reflexivity|cbn; lia]).
Qed.

Lemma fold_same_false self changes : ∀ st,
  (foldl (derive_step self) st changes).2 = false ↔
  st.2 = false ∨
  Exists (λ ch, actual_change self ch ∧ (Z.of_nat ch.1 ≤ coding self)%Z)
    changes.
Proof.
  induction changes as [|ch changes IH]; intros st.
  - cbn. split; [by left|]. intros [?|Hex]; [done|by apply Exists_nil in Hex].
  - cbn [foldl]. rewrite IH, Exists_cons. unfold actual_change.
    destruct (differs self ch) eqn:Hd.
    + rewrite (proj2 (derive_step_differs _ st _ Hd)).
      destruct st.2, (bool_decide_reflect (Z.of_nat ch.1 ≤ coding self)%Z);
        cbn; intuition congruence.
    + rewrite derive_step_same by done. intuition congruence.
Qed.

Lemma derive_loop_same self changes :
  (derive_loop self changes).2 = true →
  Forall (λ ch, actual_change self ch → (coding self < Z.of_nat ch.1)%Z)
    changes.
Proof.
  intros Hsame. apply Forall_forall. intros ch Hin Hact.
  destruct (decide (coding self < Z.of_nat ch.1)%Z) as [|Hge]; [done|].
  assert ((derive_loop self changes).2 = false); [|congruence].
  apply fold_same_false. right. apply Exists_exists. exists ch.
  split; [done|]. split; [done|lia].
Qed.

(** [derive] keeps the invariant of gene objects: if the receiver's coding
    index is the one [_find_coding] computes for its alleles, so is the
    coding index of the gene returned; the head length is carried over,
    and the cache attribute is dropped exactly when an actual change
    starts at or before the receiver's coding index. *)
Theorem derive_keeps_gene_invariant h g self changes g' h' gene' :
  genes h !! g = Some self →
  gene_inv self →
  derive h g changes = (Ok g', h') →
  genes h' !! g' = Some gene' →
  gene_inv gene' ∧
  head gene' = head self ∧
  memo gene' =
    (if (derive_loop self changes).2 then memo self else None) ∧
  ((derive_loop self changes).2 = false ↔
   Exists (λ ch, actual_change self ch ∧ (Z.of_nat ch.1 ≤ coding self)%Z)
     changes).
Proof.
  intros Hg Hinv Hd Hg'. pose proof (lookup_lt_Some _ _ _ Hg) as Hlt.
  assert (Hiff : (derive_loop self changes).2 = false ↔
            Exists (λ ch, actual_change self ch ∧
                          (Z.of_nat ch.1 ≤ coding self)%Z) changes).
  { unfold derive_loop. rewrite fold_same_false. cbn. intuition congruence. }
  destruct (derive_loop self changes).2 eqn:Hsame.
  - pose proof (derive_loop_same _ _ Hsame) as Hall.
    pose proof (derive_tail_coding_valid h g self changes g' h' gene'
                  Hg Hinv Hall Hd Hg') as Hinv'.
    split; [done|]. split; [|split; [|done]].
    all: unfold derive in Hd; rewrite Hg, Hsame in Hd.
    all: destruct (truthy (derive_loop self changes).1);
      injection Hd as <- <-; cbn [genes] in Hg'.
    all: try (rewrite lookup_app_r, Nat.sub_diag in Hg' by lia;
              by injection Hg' as <-).
    all: rewrite Hg in Hg'; by injection Hg' as <-.
  - unfold derive in Hd. rewrite Hg, Hsame in Hd.
    destruct (truthy (derive_loop self changes).1) eqn:Ht.
    + destruct (_find_coding (default [] (derive_loop self changes).1))
        as [c| |] eqn:Hc; [|done..].
      injection Hd as <- <-. cbn [genes] in Hg'.
      rewrite lookup_app_r, Nat.sub_diag in Hg' by lia. injection Hg' as <-.
      done.
    + exfalso. unfold derive_loop in Ht, Hsame.
      assert (Hno : Forall (λ ch, differs self ch = false) changes).
      { apply Forall_forall. intros ch Hin.
        destruct (differs self ch) eqn:Hdiff; [|done].
        rewrite (fold_some_change self changes (None, true)) in Ht; [done|].
        apply Exists_exists. by exists ch. }
      rewrite fold_no_change in Hsame by done. done.
Qed.

Lemma derive_keeps_gene_invariant_witness :
  let self := {| alleles := [Fn add; Name "x"; Const 3; Name "y"]; head := 1;
                 coding := 2; memo := Some 0 |} in
  let h := {| genes := [self]; dicts := [{[ 7 := VNum 8 ]}] |} in
  let changes := [(0, [Name "y"]); (3, [Name "z"])] in
  let gene' := {| alleles := [Name "y"; Name "x"; Const 3; Name "z"];
                  head := 1; coding := 0; memo := None |} in
  gene_inv gene' ∧
  head gene' = head self ∧
  memo gene' =
    (if (derive_loop self changes).2 then memo self else None) ∧
  ((derive_loop self changes).2 = false ↔
   Exists (λ ch, actual_change self ch ∧ (Z.of_nat ch.1 ≤ coding self)%Z)
     changes).
Proof.
  intros self h changes gene'.
  apply (derive_keeps_gene_invariant h 0 self changes 1
           {| genes := [self; gene']; dicts := dicts h |} gene');
    reflexivity.
Defined.

(** What one round of the loop builds when the edit lies within the
    list it is applied to. *)
Lemma setslice_in_range {A} (l xs : list A) (i : nat) :
  i + length xs ≤ length l →
  setslice l (Z.of_nat i) (Z.of_nat i + Z.of_nat (length xs)) xs
  = take i l ++ xs ++ drop (i + length xs) l.
Proof.
  intros Hr. unfold setslice.
  replace (Z.of_nat i + Z.of_nat (length xs))%Z
    with (Z.of_nat (i + length xs)) by lia.
  rewrite !slice_bound_id by lia. do 3 f_equal. lia.
Qed.

Lemma derive_step_in_range self st ch :
  differs self ch = true →
  ch.1 + length ch.2 ≤ length (alleles self) →
  (∀ l, st.1 = Some l → length l = length (alleles self)) →
  ∃ l0, length l0 = length (alleles self) ∧
        (derive_step self st ch).1
        = Some (take ch.1 l0 ++ ch.2 ++ drop (ch.1 + length ch.2) l0) ∧
        (st.1 = None → l0 = alleles self) ∧
        (∀ l, st.1 = Some l → l0 = l).
Proof.
  intros Hd Hr Hst. unfold derive_step. rewrite Hd. cbn [fst].
  destruct (truthy st.1) eqn:Ht.
  - destruct (truthy_Some _ Ht) as [Hsome _].
    specialize (Hst _ Hsome). exists (default [] st.1).
    split; [done|]. split; [|split].
    + by rewrite setslice_in_range by lia.
    + intros Hnone. by rewrite Hnone in Ht.
    + intros l Hl. by rewrite Hl.
  - exists (alleles self). split; [done|]. split; [|split; [done|]].
    + f_equal. change 0%Z with (Z.of_nat 0). rewrite getslice_nat.
      unfold slice_from.
      replace (Z.of_nat ch.1 + Z.of_nat (length ch.2))%Z
        with (Z.of_nat (ch.1 + length ch.2)) by lia.
      rewrite slice_bound_id by lia. cbn [drop Nat.min].
      rewrite Nat.sub_0_r. do 2 f_equal. lia.
    + intros l Hl. rewrite Hl in Ht. destruct l as [|a l]; [|done].
      specialize (Hst [] Hl). cbn in Hst. destruct ch as [i [|b repl]].
      * by apply differs_nonempty in Hd.
      * cbn in Hr. lia.
Qed.

Lemma fold_in_range self changes (n : nat) : ∀ st,
  Forall (λ ch, ch.1 + length ch.2 ≤ length (alleles self)) changes →
  Forall (λ ch, actual_change self ch → ¬ (ch.1 ≤ n < ch.1 + length ch.2))
    changes →
  (∀ l, st.1 = Some l →
        length l = length (alleles self) ∧ l !! n = alleles self !! n) →
  ∀ l, (foldl (derive_step self) st changes).1 = Some l →
       length l = length (alleles self) ∧ l !! n = alleles self !! n.
Proof.
  induction changes as [|ch changes IH]; intros st Hrange Hout Hst; [done|].
  apply Forall_cons in Hrange as [Hr Hrange].
  apply Forall_cons in Hout as [Ho Hout].
  cbn [foldl]. apply IH; [done|done|].
  destruct (differs self ch) eqn:Hd; [|by rewrite derive_step_same].
  destruct (derive_step_in_range self st ch Hd Hr) as (l0 & Hl0 & -> & Hn & Hs).
  { intros l Hl. by apply Hst. }
  intros l [= <-].
  assert (Hl0n : l0 !! n = alleles self !! n).
  { destruct st.1 as [l1|] eqn:Hst1.
    - rewrite (Hs l1 eq_refl). by apply Hst.
    - by rewrite Hn. }
  specialize (Ho Hd). split.
  - rewrite !length_app, length_take, length_drop. lia.
  - rewrite <- Hl0n. destruct (decide (n < ch.1)) as [Hlt|Hge].
    + rewrite lookup_app_l by (rewrite length_take; lia).
      by rewrite lookup_take_lt.
    + rewrite lookup_app_r by (rewrite length_take; lia).
      rewrite length_take, lookup_app_r by lia.
      rewrite lookup_drop. f_equal. lia.
Qed.

(** Edits that lie within the gene keep its length, and every position
    that no actual change covers keeps its allele. *)
Theorem derive_in_range h g self changes g' h' gene' :
  genes h !! g = Some self →
  Forall (λ ch, ch.1 + length ch.2 ≤ __len__ self) changes →
  derive h g changes = (Ok g', h') →
  genes h' !! g' = Some gene' →
  __len__ gene' = __len__ self ∧
  ∀ n, Forall (λ ch, actual_change self ch →
                     ¬ (ch.1 ≤ n < ch.1 + length ch.2)) changes →
       __iter__ gene' !! n = __iter__ self !! n.
Proof.
  intros Hg Hrange Hd Hg'. pose proof (lookup_lt_Some _ _ _ Hg) as Hlt.
  unfold __len__, __iter__ in *.
  assert (Hnew : truthy (derive_loop self changes).1 = true →
                 alleles gene' = default [] (derive_loop self changes).1).
  { intros Ht. unfold derive in Hd. rewrite Hg, Ht in Hd.
    destruct (derive_loop self changes).2.
    - injection Hd as <- <-. cbn [genes] in Hg'.
      rewrite lookup_app_r, Nat.sub_diag in Hg' by lia. by injection Hg' as <-.
    - destruct (_find_coding _); [|done..]. injection Hd as <- <-.
      cbn [genes] in Hg'.
      rewrite lookup_app_r, Nat.sub_diag in Hg' by lia. by injection Hg' as <-. }
  destruct (truthy (derive_loop self changes).1) eqn:Ht.
  - rewrite (Hnew eq_refl). destruct (truthy_Some _ Ht) as [Hsome _]. split.
    + assert (Hnone : Forall (λ ch, actual_change self ch →
                ¬ (ch.1 ≤ length (alleles self) < ch.1 + length ch.2)) changes).
      { eapply Forall_impl; [exact Hrange|]. cbn. intros; lia. }
      by apply (fold_in_range self changes (length (alleles self)) (None, true)
                  Hrange Hnone).
    + intros n Hout.
      by apply (fold_in_range self changes n (None, true) Hrange Hout).
  - unfold derive in Hd. rewrite Hg, Ht in Hd. injection Hd as <- <-.
    rewrite Hg in Hg'. by injection Hg' as <-.
Qed.

Lemma derive_in_range_witness :
  let self := {| alleles := [Fn add; Name "x"; Const 3; Name "y"]; head := 1;
                 coding := 2; memo := None |} in
  let gene' := {| alleles := [Fn add; Name "x"; Const 3; Name "z"]; head := 1;
                  coding := 2; memo := None |} in
  let changes := [(3, [Name "z"])] in
  __len__ gene' = __len__ self ∧
  ∀ n, Forall (λ ch, actual_change self ch →
                     ¬ (ch.1 ≤ n < ch.1 + length ch.2)) changes →
       __iter__ gene' !! n = __iter__ self !! n.
Proof.
  intros self gene' changes.
  apply (derive_in_range {| genes := [self]; dicts := [] |} 0 self changes 1
           {| genes := [self; gene']; dicts := [] |} gene'); try reflexivity.
  repeat constructor.
Defined.

(** The last edit of the list, when it is an actual change within the
    gene, is found in the gene returned at the positions it names. *)
Theorem derive_last_edit_in_place h g self changes (i : nat) repl g' h' gene' :
  genes h !! g = Some self →
  Forall (λ ch, ch.1 + length ch.2 ≤ __len__ self) changes →
  i + length repl ≤ __len__ self →
  actual_change self (i, repl) →
  derive h g (changes ++ [(i, repl)]) = (Ok g', h') →
  genes h' !! g' = Some gene' →
  g' = length (genes h) ∧
  __getslice__ gene' (Z.of_nat i) (Z.of_nat (i + length repl)) = repl.
Proof.
  intros Hg Hrange Hr Hact Hd Hg'. pose proof (lookup_lt_Some _ _ _ Hg) as Hlt.
  unfold __len__, __getslice__ in *.
  assert (Hlen : ∀ l, (derive_loop self changes).1 = Some l →
                      length l = length (alleles self)).
  { intros l Hl.
    apply (fold_in_range self changes (length (alleles self)) (None, true)
             Hrange); [|done|done].
    eapply Forall_impl; [exact Hrange|]. cbn. intros; lia. }
  destruct (derive_step_in_range self (derive_loop self changes) (i, repl)
              Hact Hr Hlen) as (l0 & Hl0 & Hstep & _).
  assert (Hloop : (derive_loop self (changes ++ [(i, repl)])).1
                  = Some (take i l0 ++ repl ++ drop (i + length repl) l0)).
  { unfold derive_loop. rewrite foldl_app. exact Hstep. }
  assert (Ht : truthy (derive_loop self (changes ++ [(i, repl)])).1 = true).
  { rewrite Hloop. pose proof (differs_nonempty _ _ Hact) as Hne.
    cbn in Hne. destruct (take i l0); [by destruct repl|done]. }
  unfold derive in Hd. rewrite Hg, Ht, Hloop in Hd. cbn [from_option id] in Hd.
  assert (alleles gene' = take i l0 ++ repl ++ drop (i + length repl) l0
          ∧ g' = length (genes h)) as [-> ->].
  { destruct (derive_loop self (changes ++ [(i, repl)])).2.
    - injection Hd as <- <-. cbn [genes] in Hg'.
      rewrite lookup_app_r, Nat.sub_diag in Hg' by lia. by injection Hg' as <-.
    - destruct (_find_coding _); [|done..]. injection Hd as <- <-.
      cbn [genes] in Hg'.
      rewrite lookup_app_r, Nat.sub_diag in Hg' by lia. by injection Hg' as <-. }
  split; [done|]. rewrite getslice_nat.
  rewrite !length_app, length_take, length_drop.
  replace ((i + length repl) `min` _ - i `min` _) with (length repl) by lia.
  replace (i `min` _) with (length (take i l0)) by (rewrite length_take; lia).
  rewrite drop_app_length. by rewrite take_app_length.
Qed.

Lemma derive_last_edit_in_place_witness :
  let self := {| alleles := [Fn add; Name "x"; Const 3; Name "y"]; head := 1;
                 coding := 2; memo := None |} in
  let gene' := {| alleles := [Fn add; Const 4; Name "z"; Name "y"]; head := 1;
                  coding := 2; memo := None |} in
  1 = length [self] ∧
  __getslice__ gene' (Z.of_nat 1) (Z.of_nat (1 + 2)) = [Const 4; Name "z"].
Proof.
  intros self gene'.
  apply (derive_last_edit_in_place {| genes := [self]; dicts := [] |} 0 self
           [(2, [Const 5])] 1 [Const 4; Name "z"] 1
           {| genes := [self; gene']; dicts := [] |} gene'); try reflexivity.
  - repeat constructor.
  - cbn. lia.
Defined.

(** Edits equal to what the receiver holds at their range are skipped
    wherever they stand in the list, also after an earlier edit of the
    same call has changed that range: dropping them changes nothing. *)
Theorem derive_skips_equal_edits h g self changes :
  genes h !! g = Some self →
  derive h g changes
  = derive h g (filter (λ ch, differs self ch = true) changes).
Proof.
  intros Hg. unfold derive. rewrite Hg.
  assert (derive_loop self changes
          = derive_loop self (filter (λ ch, differs self ch = true) changes))
    as <-; [|done].
  unfold derive_loop. generalize (None : option (list allele), true).
  induction changes as [|ch changes IH]; intros st; [done|].
  rewrite filter_cons. cbn [foldl]. case_decide as Hd.
  - cbn [foldl]. apply IH.
  - rewrite derive_step_same by (by destruct (differs self ch)). apply IH.
Qed.

Lemma derive_skips_equal_edits_witness :
  let self := {| alleles := [Fn add; Name "x"; Const 3]; head := 1;
                 coding := 2; memo := None |} in
  let h := {| genes := [self]; dicts := [] |} in
  derive h 0 [(1, [Name "y"]); (1, [Name "x"])]
  = derive h 0 (filter (λ ch, differs self ch = true)
                  [(1, [Name "y"]); (1, [Name "x"])]).
Proof.
  intros self h. by apply (derive_skips_equal_edits h 0 self).
Defined.

(** [derive] fails in one way only: with the [IndexError] of
    [_find_coding], exactly when an actual change starts at or before the
    coding index and the edited alleles are not well-formed. *)
Theorem derive_raises_iff h g self changes :
  genes h !! g = Some self →
  ((derive h g changes).1 = Raise IndexError ↔
   Exists (λ ch, actual_change self ch ∧ (Z.of_nat ch.1 ≤ coding self)%Z)
     changes ∧
   ¬ well_formed (default [] (derive_loop self changes).1)) ∧
  (∀ e, (derive h g changes).1 = Raise e → e = IndexError) ∧
  (derive h g changes).1 ≠ Unfinished.
Proof.
  intros Hg. unfold derive. rewrite Hg.
  pose proof (fold_same_false self changes (None, true)) as Hiff.
  fold (derive_loop self changes) in Hiff. cbn [snd] in Hiff.
  set (new := default [] (derive_loop self changes).1).
  destruct (truthy (derive_loop self changes).1) eqn:Ht.
  - destruct (derive_loop self changes).2 eqn:Hsame.
    + cbn. split; [|done]. split; [done|]. intros [Hex _].
      assert (true = false); [|done]. apply Hiff. by right.
    + destruct (find_coding_cases new) as [(c & -> & Hcl & _)|[-> Hn]]; cbn.
      * split; [|done]. split; [done|]. intros [_ Hn]. destruct Hn. by exists c.
      * split; [|split; [by intros e [= <-]|done]].
        split; [|done]. intros _. split; [|done].
        destruct Hiff as [[?|?] _]; done.
  - cbn. split; [|done]. split; [done|]. intros [Hex _].
    assert (Hsome : truthy (derive_loop self changes).1 = true); [|congruence].
    apply fold_some_change. eapply Exists_impl; [exact Hex|]. by intros ch [].
Qed.

Lemma derive_raises_iff_witness :
  let self := {| alleles := [Fn add; Name "x"; Const 3]; head := 1;
                 coding := 2; memo := None |} in
  let h := {| genes := [self]; dicts := [] |} in
  let changes := [(1, [Fn add])] in
  ((derive h 0 changes).1 = Raise IndexError ↔
   Exists (λ ch, actual_change self ch ∧ (Z.of_nat ch.1 ≤ coding self)%Z)
     changes ∧
   ¬ well_formed (default [] (derive_loop self changes).1)) ∧
  (∀ e, (derive h 0 changes).1 = Raise e → e = IndexError) ∧
  (derive h 0 changes).1 ≠ Unfinished.
Proof.
  intros self h changes. by apply (derive_raises_iff h 0 self changes).
Defined.

End DeriveMore.

(** * Further properties of population.py *)

Section PopulationMore.
Import population.
Implicit Types (p : Population) (pop next : list slot) (gen : generator).

(** What [izip] draws: the generator's items in order, up to [n] of them,
    stopping early only where the generator is exhausted. *)
Lemma izip_take_spec gen : ∀ n k,
  length (izip_take n gen k) ≤ n ∧
  (∀ i, i < length (izip_take n gen k) →
        Some <$> izip_take n gen k !! i = Some (gen (k + i))) ∧
  (length (izip_take n gen k) < n →
   gen (k + length (izip_take n gen k)) = None).
Proof.
  induction n as [|n IH]; intros k; cbn [izip_take].
  - split; [done|]. split; [intros i Hi; cbn in Hi; lia|cbn; lia].
  - destruct (gen k) as [c|] eqn:Hk.
    + destruct (IH (S k)) as (Hlen & Hget & Hend). cbn [length].
      split; [lia|]. split.
      * intros [|i] Hi; [cbn; by rewrite Nat.add_0_r, Hk|].
        cbn. rewrite Hget by lia. do 2 f_equal. lia.
      * intros Hlt. rewrite <- Hend by lia. f_equal. lia.
    + cbn. split; [lia|]. split; [intros i Hi; lia|].
      intros _. by rewrite Nat.add_0_r.
Qed.

Lemma init_draws_first_aux cls (size head genes : Z) linker :
  let gen := generate cls head genes linker in
  (__init__ cls size head genes linker
   = Raise (ValueError "Empty populations are meaningless!") ↔
   (size ≤ 0)%Z ∨ gen 0 = None) ∧
  ((0 < size)%Z → is_Some (gen 0) →
   ∃ p, __init__ cls size head genes linker = Ok p ∧
        age p = 1%Z ∧
        population.size p = size ∧
        _next_pop p = replicate (Z.to_nat size) None ∧
        1 ≤ length (population p) ≤ Z.to_nat size ∧
        (∀ i, i < length (population p) → population p !! i = Some (gen i)) ∧
        (length (population p) < Z.to_nat size →
         gen (length (population p)) = None)).
Proof.
  intros gen. unfold __init__. fold gen.
  destruct (izip_take_spec gen (Z.to_nat size) 0) as (Hlen & Hget & Hend).
  cbn [Nat.add] in *.
  destruct (izip_take (Z.to_nat size) gen 0) as [|c l] eqn:Htake.
  - cbn [fmap list_fmap lookup list_lookup]. split.
    + split; [|done]. intros _.
      destruct (decide (size ≤ 0)%Z) as [|Hpos]; [by left|right].
      apply Hend. cbn. lia.
    + intros Hpos [c Hc].
      assert (gen 0 = None) by (apply Hend; cbn; lia). congruence.
  - cbn [fmap list_fmap lookup list_lookup]. split.
    + split; [done|]. intros [Hneg|Hnone].
      * cbn in Hlen. lia.
      * specialize (Hget 0 ltac:(cbn; lia)). cbn in Hget. congruence.
    + intros Hpos _. eexists. split; [reflexivity|]. cbn.
      split; [done|]. split; [done|]. split; [done|].
      rewrite length_fmap. cbn in Hlen. split; [lia|]. split.
      * intros i Hi. change (Some c :: (Some <$> l)) with (Some <$> (c :: l)).
        rewrite list_lookup_fmap. apply (Hget i). cbn. lia.
      * intros Hlt. apply Hend. cbn. lia.
Qed.

(** Construction draws the first [size] chromosomes of the factory, in
    order, or all of them when the factory yields fewer; it sets the age to
    1 and a scratch buffer of [size] places; and it fails, with
    [ValueError], exactly when [size] is not positive or the factory yields
    nothing. *)
Theorem init_draws_first cls (size head genes : Z) linker :
  let gen := generate cls head genes linker in
  (__init__ cls size head genes linker
   = Raise (ValueError "Empty populations are meaningless!") ↔
   (size ≤ 0)%Z ∨ gen 0 = None) ∧
  ((0 < size)%Z → is_Some (gen 0) →
   ∃ p, __init__ cls size head genes linker = Ok p ∧
        age p = 1%Z ∧
        population.size p = size ∧
        _next_pop p = replicate (Z.to_nat size) None ∧
        1 ≤ length (population p) ≤ Z.to_nat size ∧
        (∀ i, i < length (population p) → population p !! i = Some (gen i)) ∧
        (length (population p) < Z.to_nat size →
         gen (length (population p)) = None)).
Proof. apply init_draws_first_aux. Qed.

Lemma str_mul_length s n :
  String.length (str_mul s n) = n * String.length s.
Proof.
  induction n as [|n IH]; [done|]. cbn [str_mul].
  rewrite length_append, IH. lia.
Qed.

Lemma get_append_l (s t : string) k :
  k < String.length s → String.get k (s +:+ t) = String.get k s.
Proof. intros Hk. symmetry. by apply String.append_correct1. Qed.

Lemma get_append_r (s t : string) k :
  String.length s ≤ k →
  String.get k (s +:+ t) = String.get (k - String.length s) t.
Proof.
  intros Hk. rewrite (String.append_correct2 s t (k - String.length s)).
  f_equal. lia.
Qed.

Lemma get_digits k :
  k < 10 →
  String.get k digits = Some (Ascii.ascii_of_nat (48 + k)).
Proof.
  intros Hk. do 10 (destruct k as [|k]; [reflexivity|]). lia.
Qed.

Lemma get_str_mul_digits q : ∀ k,
  k < q * 10 →
  String.get k (str_mul digits q) = String.get (k mod 10) digits.
Proof.
  induction q as [|q IH]; intros k Hk; [lia|]. cbn [str_mul].
  destruct (decide (k < 10)) as [Hlt|Hge].
  - rewrite get_append_l by (cbn; lia). by rewrite Nat.mod_small.
  - rewrite get_append_r by (cbn; lia).
    change (String.length digits) with 10. rewrite IH by lia.
    f_equal. replace k with ((k - 10) + 1 * 10) at 2 by lia.
    by rewrite Nat.Div0.mod_add.
Qed.

Lemma get_str_mul_dash n k :
  k < n → String.get k (str_mul "-" n) = Some (Ascii.ascii_of_nat 45).
Proof.
  revert k. induction n as [|n IH]; intros k Hk; [lia|]. cbn [str_mul].
  destruct k as [|k]; [done|].
  rewrite get_append_r by (cbn; lia). cbn [String.length].
  replace (S k - 1) with k by lia. apply IH. lia.
Qed.

(** The ruler that heads a printed population: for a chromosome of length
    [l] its first line has [l] characters, the k-th being the last digit of
    [k], and after a newline the second line has [l] dashes. *)
Theorem header_is_ruler (l : nat) :
  String.length (make_header l) = l + 1 + l ∧
  (∀ k, k < l →
        String.get k (make_header l)
        = Some (Ascii.ascii_of_nat (48 + k mod 10))) ∧
  String.get l (make_header l) = Some (Ascii.ascii_of_nat 10) ∧
  (∀ k, l < k ≤ l + l → String.get k (make_header l) = Some (Ascii.ascii_of_nat 45)).
Proof.
  unfold make_header. change (String.length digits) with 10.
  set (line := str_mul digits (l / 10) +:+ String.substring 0 (l mod 10) digits).
  assert (Hsub : String.length (String.substring 0 (l mod 10) digits)
                 = l mod 10).
  { pose proof (Nat.mod_upper_bound l 10 ltac:(lia)) as Hm.
    revert Hm. generalize (l mod 10). intros m Hm.
    do 10 (destruct m as [|m]; [reflexivity|]). lia. }
  assert (Hline : String.length line = l).
  { unfold line. rewrite length_append, str_mul_length, Hsub.
    change (String.length digits) with 10.
    pose proof (Nat.div_mod_eq l 10). lia. }
  assert (Hget : ∀ k, k < l →
            String.get k line = Some (Ascii.ascii_of_nat (48 + k mod 10))).
  { intros k Hk. unfold line.
    pose proof (Nat.div_mod_eq l 10) as Hdm.
    pose proof (Nat.mod_upper_bound k 10 ltac:(lia)) as Hkm.
    destruct (decide (k < l / 10 * 10)) as [Hlt|Hge].
    - rewrite get_append_l
        by (rewrite str_mul_length; change (String.length digits) with 10; lia).
      rewrite get_str_mul_digits by done. by apply get_digits.
    - rewrite get_append_r
        by (rewrite str_mul_length; change (String.length digits) with 10; lia).
      rewrite str_mul_length. change (String.length digits) with 10.
      rewrite (String.substring_correct1 digits 0 (l mod 10)) by lia.
      rewrite Nat.add_0_r.
      pose proof (Nat.mod_upper_bound l 10 ltac:(lia)) as Hlm.
      assert (Hr : k - l / 10 * 10 < 10) by lia.
      assert (k mod 10 = k - l / 10 * 10) as ->.
      { assert (k = (k - l / 10 * 10) + (l / 10) * 10) as Hsplit by lia.
        rewrite Hsplit at 1. rewrite Nat.Div0.mod_add.
        by apply Nat.mod_small. }
      by apply get_digits. }
  rewrite !length_append, str_mul_length, Hline. cbn [String.length newline].
  split; [lia|]. split; [|split].
  - intros k Hk. rewrite get_append_l by lia. by apply Hget.
  - rewrite get_append_r by lia. by rewrite Hline, Nat.sub_diag.
  - intros k Hk. rewrite get_append_r by lia. rewrite Hline.
    rewrite get_append_r by (cbn; lia). cbn [String.length newline].
    apply get_str_mul_dash. lia.
Qed.

(** The scan of [max] with the position of what it returns: nothing
    before it is as fit, nothing at all is fitter. *)
Lemma max_scan_first rest : ∀ c b,
  max_scan (Some c) (fitness c) rest = Ok b →
  ∃ x, b = Some x ∧
    (fitness c ≤ fitness x)%Z ∧
    (∀ j y, rest !! j = Some (Some y) → (fitness y ≤ fitness x)%Z) ∧
    ((x = c) ∨
     ∃ i, rest !! i = Some (Some x) ∧ (fitness c < fitness x)%Z ∧
          ∀ j y, j < i → rest !! j = Some (Some y) →
                 (fitness y < fitness x)%Z).
Proof.
  induction rest as [|s rest IH]; intros c b Hb.
  - injection Hb as <-. exists c. split; [done|]. split; [lia|].
    split; [done|by left].
  - cbn [max_scan] in Hb. destruct s as [d|]; [|done]. cbn [fitness_of bind] in Hb.
    destruct (fitness c <? fitness d)%Z eqn:Hlt.
    + apply Z.ltb_lt in Hlt.
      destruct (IH d b Hb) as (x & -> & Hge & Hmax & Hpos).
      exists x. split; [done|]. split; [lia|]. split.
      * intros [|j] y Hj; [injection Hj as <-; done|by apply (Hmax j)].
      * right. destruct Hpos as [->|(i & Hi & Hdx & Hbefore)].
        -- exists 0. split; [done|]. split; [done|]. intros j y Hj. lia.
        -- exists (S i). split; [done|]. split; [lia|].
           intros [|j] y Hj Hy; [injection Hy as <-; lia|].
           apply (Hbefore j); [lia|done].
    + apply Z.ltb_ge in Hlt.
      destruct (IH c b Hb) as (x & -> & Hge & Hmax & Hpos).
      exists x. split; [done|]. split; [done|]. split.
      * intros [|j] y Hj; [injection Hj as <-; lia|by apply (Hmax j)].
      * destruct Hpos as [->|(i & Hi & Hcx & Hbefore)]; [by left|].
        right. exists (S i). split; [done|]. split; [done|].
        intros [|j] y Hj Hy; [injection Hy as <-; lia|].
        apply (Hbefore j); [lia|done].
Qed.

Lemma max_scan_None rest : ∀ s k,
  None ∈ rest → max_scan s k rest = Raise (AttributeError "fitness").
Proof.
  induction rest as [|x rest IH]; intros s k Hin;
    [by apply elem_of_nil in Hin|].
  cbn [max_scan]. destruct x as [d|]; [|done].
  apply elem_of_cons in Hin as [?|Hin]; [done|]. cbn [fitness_of bind].
  destruct (k <? fitness d)%Z; by apply IH.
Qed.

Lemma best_None p :
  None ∈ population p → best p = Raise (AttributeError "fitness").
Proof.
  unfold best. intros Hin. destruct (population p) as [|s rest];
    [by apply elem_of_nil in Hin|].
  destruct s as [c|]; [|done]. cbn [fitness_of bind].
  apply elem_of_cons in Hin as [?|Hin]; [done|]. by apply max_scan_None.
Qed.

Lemma best_is_first_maximum_aux p :
  (population p = [] →
   best p = Raise (ValueError "max() arg is an empty sequence")) ∧
  (None ∈ population p → best p = Raise (AttributeError "fitness")) ∧
  (∀ b, best p = Ok b →
     ∃ x i, b = Some x ∧ population p !! i = Some (Some x) ∧
       (∀ j y, j < i → population p !! j = Some (Some y) →
               (fitness y < fitness x)%Z) ∧
       (∀ j y, population p !! j = Some (Some y) →
               (fitness y ≤ fitness x)%Z)).
Proof.
  split; [unfold best; by intros ->|]. split; [apply best_None|].
  unfold best.
  - intros b Hb. destruct (population p) as [|s rest]; [done|].
    destruct s as [c|]; [|done]. cbn [fitness_of bind] in Hb.
    destruct (max_scan_first rest c b Hb) as (x & -> & Hge & Hmax & Hpos).
    destruct Hpos as [->|(i & Hi & Hcx & Hbefore)].
    + exists c, 0. split; [done|]. split; [done|]. split; [intros; lia|].
      intros [|j] y Hj; [injection Hj as <-; lia|by apply (Hmax j)].
    + exists x, (S i). split; [done|]. split; [done|]. split.
      * intros [|j] y Hj Hy; [injection Hy as <-; lia|].
        apply (Hbefore j); [lia|done].
      * intros [|j] y Hj; [injection Hj as <-; lia|by apply (Hmax j)].
Qed.

(** [best] is the first chromosome of greatest fitness: none before it is
    as fit and none is fitter.  On an empty population it raises
    [ValueError], and where a place holds [None] it raises
    [AttributeError]. *)
Theorem best_is_first_maximum p :
  (population p = [] →
   best p = Raise (ValueError "max() arg is an empty sequence")) ∧
  (None ∈ population p → best p = Raise (AttributeError "fitness")) ∧
  (∀ b, best p = Ok b →
     ∃ x i, b = Some x ∧ population p !! i = Some (Some x) ∧
       (∀ j y, j < i → population p !! j = Some (Some y) →
               (fitness y < fitness x)%Z) ∧
       (∀ j y, population p !! j = Some (Some y) →
               (fitness y ≤ fitness x)%Z)).
Proof. apply best_is_first_maximum_aux. Qed.

Lemma max_scan_champion rest : ∀ c,
  (∀ s, s ∈ rest → ∃ y, s = Some y ∧ (fitness y ≤ fitness c)%Z) →
  max_scan (Some c) (fitness c) rest = Ok (Some c).
Proof.
  induction rest as [|s rest IH]; intros c Hall; [done|].
  destruct (Hall s (list_elem_of_here _ _)) as (y & -> & Hy).
  cbn [max_scan fitness_of bind].
  destruct (Z.ltb_spec (fitness c) (fitness y)); [lia|].
  apply IH. intros s Hs. apply Hall. by apply list_elem_of_further.
Qed.

(** Elitism with this selection keeps the champion for good: after a
    cycle the best chromosome of the new generation is the very best
    chromosome of the old one, so the best fitness neither falls nor
    rises, however many cycles follow. *)
Theorem best_survives_cycles (rngs : nat → nat → nat) (n : nat) p :
  pop_inv p →
  ∃ p' b,
    foldl (λ r k, let* q := r in cycle q (rngs k)) (Ok p) (seq 0 n) = Ok p' ∧
    best p = Ok (Some b) ∧
    best p' = Ok (Some b) ∧
    age p' = (age p + Z.of_nat n)%Z.
Proof.
  intros Hinv. induction n as [|n IH].
  - destruct (best_spec p Hinv) as (b & Hb & _). exists p, b. cbn.
    split; [done|]. split; [done|]. split; [done|lia].
  - destruct IH as (q & b & Hq & Hb & Hbq & Hage).
    destruct (cycles_spec rngs n p Hinv) as (q' & Hq' & _ & _ & Hinvq).
    assert (q' = q) as -> by congruence.
    destruct (cycle_spec q (rngs (0 + n)) Hinvq)
      as (p' & b' & Hc & Hage' & _ & _ & Hb' & _ & Hmax & H0 & Hmem & _).
    assert (b' = b) as -> by congruence.
    exists p', b. rewrite seq_S, foldl_app, Hq. cbn [foldl bind].
    split; [done|]. split; [done|]. split; [|lia].
    unfold best. destruct (population p') as [|s rest] eqn:Hpop; [done|].
    cbn in H0. injection H0 as ->. cbn [fitness_of bind].
    apply max_scan_champion. intros s Hs.
    assert (Hs' : s ∈ population q) by (apply Hmem; by apply list_elem_of_further).
    destruct Hinvq as (_ & _ & _ & Hall).
    destruct (proj1 (Forall_forall _ _) Hall s Hs') as [y ->].
    exists y. split; [done|]. by apply Hmax.
Qed.

Lemma best_survives_cycles_witness :
  ∃ p' b,
    foldl (λ r k, let* q := r in cycle q ((λ k i, k + 5 * i) k))
      (Ok sample_population) (seq 0 4) = Ok p' ∧
    best sample_population = Ok (Some b) ∧
    best p' = Ok (Some b) ∧
    age p' = (age sample_population + Z.of_nat 4)%Z.
Proof.
  apply (best_survives_cycles (λ k i, k + 5 * i) 4 sample_population).
  split; [cbn; lia|]. split; [reflexivity|]. split; [reflexivity|].
  repeat constructor; by eexists.
Defined.

Lemma best_ok_iff p :
  (∃ b, best p = Ok b) ↔ population p ≠ [] ∧ Forall is_Some (population p).
Proof.
  split.
  - intros [b Hb]. split.
    + intros Hnil. unfold best in Hb. by rewrite Hnil in Hb.
    + apply Forall_forall. intros s Hs. destruct s as [c|]; [by eexists|].
      rewrite best_None in Hb; done.
  - intros [Hne Hall]. unfold best.
    destruct (population p) as [|s rest]; [done|].
    apply Forall_cons in Hall as [[c ->] Hall]. cbn [fitness_of bind].
    destruct (max_scan_spec rest c Hall) as (b & -> & _). by eexists.
Qed.

Lemma fill_fails pop rng : ∀ range next,
  pop ≠ [] →
  Exists (λ i, length next ≤ i) range →
  fill pop rng range next = Raise IndexError.
Proof.
  induction range as [|i range IH]; intros next Hne Hex;
    [by apply Exists_nil in Hex|].
  cbn [fill]. destruct (choice_spec pop (rng i) Hne) as (x & -> & _).
  cbn [bind]. unfold setitem. case_decide as Hi; [|done]. cbn [bind].
  apply IH; [done|]. rewrite length_insert.
  apply Exists_cons in Hex as [?|?]; [lia|done].
Qed.

Lemma cycle_returns_iff_aux p rng :
  ((∃ p', cycle p rng = Ok p') ↔
   population p ≠ [] ∧ Forall is_Some (population p) ∧
   1 ≤ length (_next_pop p) ∧ Z.to_nat (size p) ≤ length (_next_pop p)) ∧
  (∀ p', cycle p rng = Ok p' →
         size p' = size p ∧
         _next_pop p' = population p ∧
         length (population p') = length (_next_pop p)) ∧
  (population p ≠ [] → Forall is_Some (population p) →
   length (_next_pop p) < 1 ∨ length (_next_pop p) < Z.to_nat (size p) →
   cycle p rng = Raise IndexError).
Proof.
  unfold cycle.
  destruct (best p) as [b|e|] eqn:Hb.
  2,3: assert (Hno : ¬ (population p ≠ [] ∧ Forall is_Some (population p)))
         by (intros Hok; destruct (proj2 (best_ok_iff p) Hok) as [b Hb'];
             congruence);
       cbn [bind]; split; [|split; [done|intros ? ?; by destruct Hno]];
       split; [by intros [p' Hp']|intros (? & ? & _); by destruct Hno].
  destruct (proj1 (best_ok_iff p) (ex_intro _ b Hb)) as [Hne Hall].
  cbn [bind]. unfold setitem.
  destruct (decide (0 < length (_next_pop p))) as [Hpos|Hzero]; cbn [bind].
  2: { split; [|split; [done|done]].
       split; [by intros [p' Hp']|intros (_ & _ & ? & _); lia]. }
  destruct (decide (Z.to_nat (size p) ≤ length (_next_pop p))) as [Hsz|Hsz].
  - destruct (fill_spec (population p) rng (seq 1 (Z.to_nat (size p) - 1))
                (<[0:=b]> (_next_pop p)) Hne)
      as (next' & -> & Hlen' & _).
    { apply Forall_forall. intros i Hi. apply elem_of_seq in Hi.
      rewrite length_insert. lia. }
    cbn [bind]. rewrite length_insert in Hlen'. split; [|split].
    + split; [intros _; split; [done|split; [done|lia]]|by eexists].
    + by intros p' [= <-].
    + intros _ _ [?|?]; lia.
  - rewrite fill_fails; [|done|].
    + cbn [bind]. split; [|split; [done|done]].
      split; [by intros [p' Hp']|]. intros (_ & _ & _ & ?). lia.
    + apply Exists_exists. exists (Z.to_nat (size p) - 1).
      split; [apply elem_of_seq; lia|]. rewrite length_insert. lia.
Qed.

(** [cycle] returns exactly when the active buffer is non-empty and holds
    chromosomes only and the scratch buffer has at least one place and at
    least [size] places, whatever the random draws.  It then keeps [size],
    leaves the old generation as the scratch buffer and a new generation as
    long as the old scratch buffer; with a scratch buffer too short it
    raises [IndexError]. *)
Theorem cycle_returns_iff p rng :
  ((∃ p', cycle p rng = Ok p') ↔
   population p ≠ [] ∧ Forall is_Some (population p) ∧
   1 ≤ length (_next_pop p) ∧ Z.to_nat (size p) ≤ length (_next_pop p)) ∧
  (∀ p', cycle p rng = Ok p' →
         size p' = size p ∧
         _next_pop p' = population p ∧
         length (population p') = length (_next_pop p)) ∧
  (population p ≠ [] → Forall is_Some (population p) →
   length (_next_pop p) < 1 ∨ length (_next_pop p) < Z.to_nat (size p) →
   cycle p rng = Raise IndexError).
Proof. apply cycle_returns_iff_aux. Qed.

(** After a cycle whose scratch buffer had no more than [size] places the
    new generation holds chromosomes only. *)
Lemma cycle_members p rng p' :
  cycle p rng = Ok p' →
  length (_next_pop p) ≤ Z.to_nat (size p) →
  population p' ≠ [] ∧ Forall is_Some (population p').
Proof.
  intros Hc Hle.
  destruct (cycle_returns_iff_aux p rng) as (Hiff & Hbuf & _).
  destruct (proj1 Hiff (ex_intro _ p' Hc)) as (Hne & Hall & Hpos & Hsz).
  destruct (Hbuf p' Hc) as (_ & _ & Hlen).
  unfold cycle in Hc.
  destruct (best p) as [b| |] eqn:Hb; [|done..]. cbn [bind] in Hc.
  destruct (best_is_first_maximum_aux p) as (_ & _ & Hbest).
  destruct (Hbest b Hb) as (x & _ & -> & _).
  unfold setitem in Hc. rewrite decide_True in Hc by lia. cbn [bind] in Hc.
  destruct (fill_spec (population p) rng (seq 1 (Z.to_nat (size p) - 1))
              (<[0:=Some x]> (_next_pop p)) Hne)
    as (next' & Hfill & Hlen' & Hout & Hin).
  { apply Forall_forall. intros i Hi. apply elem_of_seq in Hi.
    rewrite length_insert. lia. }
  rewrite Hfill in Hc. injection Hc as <-. cbn [population] in *.
  rewrite length_insert in Hlen'. split.
  - intros Hnil. rewrite Hnil in Hlen'. cbn in Hlen'. lia.
  - apply Forall_forall. intros s Hs.
    apply list_elem_of_lookup in Hs as [i Hi].
    pose proof (lookup_lt_Some _ _ _ Hi) as Hlt.
    destruct i as [|i].
    + rewrite Hout in Hi by (intros Hi'; apply elem_of_seq in Hi'; lia).
      rewrite list_lookup_insert_eq in Hi by lia. injection Hi as <-.
      by eexists.
    + destruct (Hin (S i)) as (y & Hy & Hyin); [apply elem_of_seq; lia|].
      assert (s = y) as -> by congruence.
      by apply (proj1 (Forall_forall _ _) Hall).
Qed.

(** A factory that yields some chromosomes but fewer than [size] gives a
    population that survives its first cycle and fails in the second:
    the buffers are swapped, and the shorter one is then written past its
    end. *)
Theorem underfilled_fails_second_cycle cls (size head genes : Z) linker
  p rng rng' :
  __init__ cls size head genes linker = Ok p →
  length (population p) < Z.to_nat size →
  ∃ p', cycle p rng = Ok p' ∧
        length (population p') = Z.to_nat size ∧
        cycle p' rng' = Raise IndexError.
Proof.
  intros Hinit Hshort.
  destruct (init_draws_first_aux cls size head genes linker) as [Hfail Hok].
  assert (Hsize : (0 < size)%Z) by lia.
  assert (Hgen : is_Some (generate cls head genes linker 0)).
  { destruct (generate cls head genes linker 0) eqn:Hg; [by eexists|].
    rewrite (proj2 Hfail) in Hinit by (by right). done. }
  destruct (Hok Hsize Hgen) as (q & Hq & _ & Hsz & Hnext & Hlen & Hget & _).
  assert (q = p) as -> by congruence.
  assert (Hall : Forall is_Some (population p)).
  { apply Forall_forall. intros s Hs.
    apply list_elem_of_lookup in Hs as [i Hi].
    pose proof (lookup_lt_Some _ _ _ Hi) as Hlt.
    unfold __init__ in Hinit.
    destruct (_ !! 0) as [[c|]|] in Hinit; [|done..].
    injection Hinit as <-. cbn [population] in *.
    rewrite list_lookup_fmap in Hi. destruct (_ !! i); [|done].
    injection Hi as <-. by eexists. }
  assert (Hne : population p ≠ []).
  { intros Hnil. rewrite Hnil in Hlen. cbn in Hlen. lia. }
  destruct (cycle_returns_iff_aux p rng) as (Hiff & Hbuf & _).
  destruct (proj2 Hiff) as [p' Hp'].
  { rewrite Hnext, length_replicate, Hsz. repeat split; [done|done|lia|lia]. }
  destruct (Hbuf p' Hp') as (Hsz' & Hnext' & Hlen').
  rewrite Hnext, length_replicate in Hlen'.
  exists p'. split; [done|]. split; [done|].
  destruct (cycle_members p rng p' Hp') as [Hne' Hall'];
    [rewrite Hnext, length_replicate, Hsz; lia|].
  destruct (cycle_returns_iff_aux p' rng') as (_ & _ & Hraise).
  apply Hraise; [done|done|]. right. rewrite Hnext', Hsz', Hsz. done.
Qed.

Lemma underfilled_fails_second_cycle_witness :
  let cls := {| generate := fun _ _ _ k =>
                  if decide (k < 2)
                  then Some {| chrom_id := k; chrom_len := 13;
                               fitness := Z.of_nat k; chrom_str := "c" |}
                  else None |} in
  ∃ p', cycle {| size := 3; head := 6; genes := 1; linker := identity_linker;
                 age := 1;
                 population := Some <$> izip_take 3 (generate cls 6 1
                                                       identity_linker) 0;
                 _next_pop := [None; None; None];
                 header := make_header 13 |} (λ i, i) = Ok p' ∧
        length (population p') = Z.to_nat 3 ∧
        cycle p' (λ i, 2 * i) = Raise IndexError.
Proof.
  intros cls.
  apply (underfilled_fails_second_cycle cls 3 6 1 identity_linker);
    [reflexivity|vm_compute; lia].
Defined.

End PopulationMore.

(** ** Evaluation of constructed genes *)

Section EvaluationMore.
Import karva.
Implicit Types (alleles : list allele) (obj : context).

(** The coding index depends on the alleles up to it only: a gene that
    agrees with another one up to that one's coding index has the same
    coding index, whatever follows. *)
Theorem coding_ignores_tail (old new : list allele) (c : nat) :
  _find_coding old = Ok (Z.of_nat c) →
  take (S c) new = take (S c) old →
  _find_coding new = Ok (Z.of_nat c).
Proof. apply find_coding_prefix. Qed.

Lemma coding_ignores_tail_witness :
  _find_coding [Fn add; Name "x"; Const 3; Fn add; Fn add] = Ok (Z.of_nat 2).
Proof.
  apply (coding_ignores_tail [Fn add; Name "x"; Const 3]); reflexivity.
Defined.

(** Evaluating a gene whose coding index is the computed one ends in one
    of three ways: with a value, with the [AttributeError] of a terminal
    name of the gene that the context lacks, or with the failure of a
    function of the gene on as many arguments as it takes; the evaluator
    itself raises neither [IndexError] nor [TypeError]. *)
Theorem evaluation_ends_well alleles (c : nat) hd m obj :
  _find_coding alleles = Ok (Z.of_nat c) →
  let r := (call_body {| alleles := alleles; head := hd;
                         coding := Z.of_nat c; memo := m |} obj).1 in
  ends_well alleles obj r ∧
  r ≠ Raise IndexError ∧ r ≠ Raise TypeError ∧ r ≠ Unfinished.
Proof.
  intros Hc r. destruct (find_coding_open _ _ Hc) as [Hcl _].
  pose proof (call_body_ends_well alleles c hd m obj Hcl) as Hr. fold r in Hr.
  split; [done|].
  destruct Hr as [(v & ->)|[(s & _ & _ & ->)|(f & args & _ & _ & _ & ->)]];
    done.
Qed.

Lemma evaluation_ends_well_witness :
  let r := (call_body {| alleles := [Fn add; Name "x"; Const 3; Name "y"];
                         head := 1; coding := Z.of_nat 2; memo := None |}
              ctx5).1 in
  ends_well [Fn add; Name "x"; Const 3; Name "y"] ctx5 r ∧
  r ≠ Raise IndexError ∧ r ≠ Raise TypeError ∧ r ≠ Unfinished.
Proof.
  apply (evaluation_ends_well [Fn add; Name "x"; Const 3; Name "y"] 2 1 None
           ctx5).
  reflexivity.
Defined.

Lemma terminals_lookup alleles i s :
  alleles !! i = Some (Name s) → s ∈ terminals alleles.
Proof.
  intros Hi. apply list_elem_of_omap. exists (Name s).
  split; [by eapply list_elem_of_lookup_2|done].
Qed.

(** The backward walk over numbers: when the slots already passed and the
    terminals still ahead hold numbers, and functions map numbers to
    numbers, the walk returns and leaves a number at the root. *)
Lemma walk_numbers alleles (c : nat) :
  closes alleles c →
  (∀ i, i ≤ c → i < child_start alleles i) →
  (∀ f args, Fn f ∈ alleles → length args = co_argcount f →
             Forall is_number args → ∃ z, code f args = Some (VNum z)) →
  ∀ n ev index,
    n ≤ S c →
    length ev = length alleles →
    index = Z.of_nat (child_start alleles n) →
    (∀ j a, j < n → alleles !! j = Some a → callable a = false →
            ∃ z, ev !! j = Some (VNum z)) →
    (∀ j, n ≤ j ≤ c → ∃ z, ev !! j = Some (VNum z)) →
    ∃ st z, (walk alleles n ev index).1 = Ok st ∧ st.1 !! 0 = Some (VNum z).
Proof.
  intros [Hc Hreq] Hopen Hcode.
  assert (Hend : child_start alleles (S c) = S c) by (unfold child_start; lia).
  induction n as [|i IH]; intros ev index Hn Hlen Hidx Hterm Hnum.
  - destruct (Hnum 0 ltac:(lia)) as [z Hz]. by exists (ev, index), z.
  - destruct (lookup_lt_is_Some_2 alleles i) as [a Ha]; [lia|].
    pose proof (child_start_S _ _ _ Ha) as HS.
    pose proof (child_start_mono alleles (S i) (S c) ltac:(lia)) as Hmono.
    pose proof (Hopen i ltac:(lia)) as Hi.
    rewrite (walk_step _ _ _ _ _ Ha).
    assert (Hpass : callable a = false →
                    ∃ st z, (walk alleles i ev index).1 = Ok st ∧
                            st.1 !! 0 = Some (VNum z)).
    { intros Hcall. apply IH; [lia|done| | |].
      - destruct a; [done|cbn [arity] in HS; lia..].
      - intros j b Hj. apply Hterm. lia.
      - intros j Hj. destruct (decide (j = i)) as [->|]; [|apply Hnum; lia].
        apply (Hterm i a); [lia|done|done]. }
    destruct a as [f|s|z]; [|by apply Hpass..]. cbn [arity] in HS.
    cbv zeta. set (lo := child_start alleles i) in *.
    assert (Hslice : getslice ev (index - Z.of_nat (co_argcount f)) index
                     = take (co_argcount f) (drop lo ev)).
    { unfold getslice.
      replace (index - Z.of_nat (co_argcount f))%Z with (Z.of_nat lo) by lia.
      rewrite Hidx, !slice_bound_id by lia. f_equal. lia. }
    rewrite Hslice.
    assert (Hlenargs : length (take (co_argcount f) (drop lo ev))
                       = co_argcount f).
    { rewrite length_take, length_drop. lia. }
    assert (Hargs : Forall is_number (take (co_argcount f) (drop lo ev))).
    { apply Forall_lookup. intros k v Hk.
      apply lookup_take_Some in Hk as [Hk Hlt]. rewrite lookup_drop in Hk.
      destruct (Hnum (lo + k) ltac:(lia)) as [z Hz]. exists z. congruence. }
    destruct (Hcode f _ (list_elem_of_lookup_2 _ _ _ Ha) Hlenargs Hargs)
      as [z Hz].
    rewrite tbind_emit. cbn [fst]. unfold apply.
    rewrite decide_True by done. rewrite Hz, tbind_lift_Ok.
    unfold setitem. rewrite decide_True by lia. rewrite tbind_lift_Ok.
    apply IH; [lia|by rewrite length_insert|lia| |].
    + intros j b Hj Hb Hcall. rewrite list_lookup_insert_ne by lia.
      apply (Hterm j b); [lia|done|done].
    + intros j Hj. destruct (decide (j = i)) as [->|Hne].
      * exists z. apply list_lookup_insert_eq. lia.
      * rewrite list_lookup_insert_ne by done. apply Hnum. lia.
Qed.

(** Evaluation over numbers returns a number: when the gene's coding index
    is the computed one, every terminal name of the gene is an attribute
    of the context holding a number, and every function of the gene
    returns a number on as many numbers as it takes, the call returns a
    number. *)
Theorem evaluation_returns alleles (c : nat) hd m obj :
  _find_coding alleles = Ok (Z.of_nat c) →
  (∀ s, s ∈ terminals alleles → ∃ z, attrs obj !! s = Some (VNum z)) →
  (∀ f args, Fn f ∈ alleles → length args = co_argcount f →
             Forall is_number args → ∃ z, code f args = Some (VNum z)) →
  ∃ z, (call_body {| alleles := alleles; head := hd; coding := Z.of_nat c;
                     memo := m |} obj).1 = Ok (VNum z).
Proof.
  intros Hc Hnames Hcode. destruct (find_coding_open _ _ Hc) as [Hcl Hopen].
  unfold call_body. cbn [karva.alleles coding]. rewrite tbind_fst.
  destruct (comprehension_outcome obj alleles)
    as [(ev & Hev)|(s & Hs & Hnone & _)].
  2: { destruct (Hnames s Hs) as [z Hz]. congruence. }
  rewrite Hev. pose proof (comprehension_length _ _ _ Hev) as Hlen.
  pose proof (comprehension_lookup _ _ _ Hev) as Hlook.
  replace (Z.to_nat (Z.of_nat c + 1)) with (S c) by lia.
  destruct (walk_numbers alleles c Hcl Hopen Hcode (S c) ev (Z.of_nat c + 1))
    as (st & z & Hst & Hz); [lia|done| | | |].
  - destruct Hcl as [_ Hreq]. unfold child_start. lia.
  - intros j a _ Ha Hcall. specialize (Hlook j a Ha).
    destruct a as [f|s|k]; [done| |by exists k].
    destruct Hlook as [Hj _].
    destruct (Hnames s (terminals_lookup _ _ _ Ha)) as [z Hz].
    exists z. congruence.
  - intros j Hj. lia.
  - rewrite tbind_fst, Hst. cbn [lift fst]. unfold getitem. rewrite Hz.
    by exists z.
Qed.

Lemma evaluation_returns_witness :
  ∃ z, (call_body {| alleles := [Fn add; Name "x"; Fn add; Const 3; Name "x";
                                 Name "x"];
                     head := 3; coding := Z.of_nat 4; memo := None |}
          ctx5).1 = Ok (VNum z).
Proof.
  apply (evaluation_returns
           [Fn add; Name "x"; Fn add; Const 3; Name "x"; Name "x"] 4 3 None
           ctx5).
  - reflexivity.
  - intros s Hs. cbn in Hs.
    assert (s = "x") as ->.
    { repeat (apply elem_of_cons in Hs as [->|Hs]; [done|]).
      by apply elem_of_nil in Hs. }
    by exists 5%Z.
  - intros f args Hf Hlen Hargs.
    assert (co_argcount f = 2 ∧ code f = add_code) as [Har Hcd].
    { repeat (apply elem_of_cons in Hf as [Hf|Hf];
              [by (injection Hf as ->) || discriminate|]).
      by apply elem_of_nil in Hf. }
    rewrite Har in Hlen. rewrite Hcd.
    destruct args as [|a [|b [|? ?]]]; try discriminate.
    apply Forall_cons in Hargs as [[x ->] Hargs].
    apply Forall_cons in Hargs as [[y ->] _].
    by exists (x + y)%Z.
Defined.

End EvaluationMore.
